(** * SurveyBot: the task-plan status updater [update_tasks.py]

    The script reads a task plan, rewrites with a regular expression the
    status of TASK-001 .. TASK-030 from pending to completed, writes the
    plan back and prints a count.  This development embeds the script
    together with the fragment of Python's [re] module it calls, and
    proves what the script does to a document. *)

From Stdlib Require Import Ascii String List Arith Lia Bool.
Import ListNotations.

(** ** Text

    A Python [str] is modelled as a list of characters.  Every literal of
    the script is ASCII and [.] runs under DOTALL, so the width of a
    character plays no role. *)

Definition text := list ascii.

Definition lit (s : string) : text := list_ascii_of_string s.

Definition dq : ascii := "034"%char.
Definition nl : ascii := "010"%char.
Definition bs : ascii := "\"%char.

Definition ascii_eqb (a b : ascii) : bool := Ascii.eqb a b.

(** [strip_prefix p s] is [Some r] exactly when [s = p ++ r]. *)
Fixpoint strip_prefix (p s : text) : option text :=
  match p with
  | [] => Some s
  | c :: p' =>
      match s with
      | [] => None
      | d :: s' => if ascii_eqb c d then strip_prefix p' s' else None
      end
  end.

(** [partition p s] splits [s] around the first occurrence of [p], like
    [str.partition]: [Some (a, b)] with [s = a ++ p ++ b]. *)
Fixpoint partition (p s : text) : option (text * text) :=
  match strip_prefix p s with
  | Some r => Some ([], r)
  | None =>
      match s with
      | [] => None
      | c :: s' =>
          match partition p s' with
          | Some (a, b) => Some (c :: a, b)
          | None => None
          end
      end
  end.

(** Number of positions of [s] at which [p] starts. *)
Fixpoint count_sub (p s : text) : nat :=
  match s with
  | [] => 0
  | _ :: s' =>
      (match strip_prefix p s with Some _ => 1 | None => 0 end) + count_sub p s'
  end.

(** ** Formatting: [f"{n:03d}"] *)

Definition digit_char (d : nat) : ascii := ascii_of_nat (48 + d).

Fixpoint digits_of (fuel n : nat) (acc : text) : text :=
  match fuel with
  | 0 => acc
  | S f =>
      let acc' := digit_char (n mod 10) :: acc in
      if n / 10 =? 0 then acc' else digits_of f (n / 10) acc'
  end.

Definition str_of_nat (n : nat) : text := digits_of (S n) n [].

Definition zfill (width : nat) (s : text) : text :=
  repeat "0"%char (width - length s) ++ s.

Definition format_03d (n : nat) : text := zfill 3 (str_of_nat n).

(** ** The fragment of [re] used by the script *)

Inductive regex : Type :=
| Eps : regex
| Chr : ascii -> regex
| Dot : regex
| Cat : regex -> regex -> regex
| Grp : nat -> regex -> regex
| LazyStar : regex -> regex.

Definition is_meta (c : ascii) : bool :=
  existsb (ascii_eqb c) (lit "\^$*+?{}[]|()").

(** Parser for the fragment: literal characters, [.], capturing groups
    numbered by their opening parenthesis, and the postfix [*?].  Any other
    metacharacter is outside the fragment and rejected. *)
Fixpoint parse_seq (fuel : nat) (s : text) (next : nat)
  : option (regex * text * nat) :=
  match fuel with
  | 0 => None
  | S f =>
      match s with
      | [] => Some (Eps, [], next)
      | c :: s1 =>
          if ascii_eqb c ")"%char then Some (Eps, s, next)
          else
            let atom :=
              if ascii_eqb c "("%char then
                match parse_seq f s1 (S next) with
                | Some (r, d :: s2, next') =>
                    if ascii_eqb d ")"%char then Some (Grp next r, s2, next')
                    else None
                | _ => None
                end
              else if ascii_eqb c "."%char then Some (Dot, s1, next)
              else if is_meta c then None
              else Some (Chr c, s1, next) in
            match atom with
            | None => None
            | Some (a, s2, next2) =>
                let '(a', s3) :=
                  match s2 with
                  | x :: y :: s3 =>
                      if ascii_eqb x "*"%char && ascii_eqb y "?"%char
                      then (LazyStar a, s3) else (a, s2)
                  | _ => (a, s2)
                  end in
                match parse_seq f s3 next2 with
                | Some (r, s4, next4) => Some (Cat a' r, s4, next4)
                | None => None
                end
            end
      end
  end.

(** A compiled pattern: the syntax tree and the number of groups. *)
Definition re_compile (p : text) : option (regex * nat) :=
  match parse_seq (S (length p)) p 1 with
  | Some (r, [], next) => Some (r, next - 1)
  | _ => None
  end.

Definition groups := nat -> option text.

Definition no_groups : groups := fun _ => None.

Definition set_group (i : nat) (v : text) (g : groups) : groups :=
  fun j => if j =? i then Some v else g j.

(** Backtracking matcher in continuation-passing style.  [rmatch] tries the
    alternatives in the order of Python's engine, so the first success is
    the match Python reports; [LazyStar] tries the continuation before it
    takes one more iteration.  [dotall] is the flag [re.DOTALL]. *)
Section Matcher.
Variable A : Type.
Variable dotall : bool.

Fixpoint rmatch (r : regex) (s : text) (g : groups)
         (k : text -> groups -> option A) {struct r} : option A :=
  match r with
  | Eps => k s g
  | Chr c =>
      match s with
      | d :: s' => if ascii_eqb c d then k s' g else None
      | [] => None
      end
  | Dot =>
      match s with
      | d :: s' => if dotall || negb (ascii_eqb d nl) then k s' g else None
      | [] => None
      end
  | Cat r1 r2 => rmatch r1 s g (fun s' g' => rmatch r2 s' g' k)
  | Grp i r1 =>
      rmatch r1 s g
        (fun s' g' => k s' (set_group i (firstn (length s - length s') s) g'))
  | LazyStar r1 =>
      (fix star (fuel : nat) (s : text) (g : groups) {struct fuel} : option A :=
         match k s g with
         | Some x => Some x
         | None =>
             match fuel with
             | 0 => None
             | S f =>
                 rmatch r1 s g
                   (fun s' g' =>
                      if length s' <? length s then star f s' g' else None)
             end
         end) (length s) s g
  end.
End Matcher.

Arguments rmatch {A} dotall r s g k.

(** [re_match r s]: a match anchored at the start of [s], as the text left
    after the match and the groups. *)
Definition re_match (dotall : bool) (r : regex) (s : text)
  : option (text * groups) :=
  rmatch dotall r s no_groups (fun s' g => Some (s', g)).

(** The replacement template: [\d] is a group reference, [\n] a newline,
    [\\] a backslash.  Other escapes are outside the fragment. *)
Inductive titem : Type :=
| TChr : ascii -> titem
| TRef : nat -> titem.

Definition digit_val (c : ascii) : option nat :=
  let n := nat_of_ascii c in
  if (48 <=? n) && (n <=? 57) then Some (n - 48) else None.

Fixpoint parse_template (ngroups : nat) (t : text) : option (list titem) :=
  match t with
  | [] => Some []
  | c :: t1 =>
      if ascii_eqb c bs then
        match t1 with
        | [] => None
        | e :: t2 =>
            match digit_val e with
            | Some i =>
                if (1 <=? i) && (i <=? ngroups)
                   && negb (match t2 with
                            | x :: _ => match digit_val x with Some _ => true | None => false end
                            | [] => false
                            end)
                then option_map (cons (TRef i)) (parse_template ngroups t2)
                else None
            | None =>
                if ascii_eqb e "n"%char
                then option_map (cons (TChr nl)) (parse_template ngroups t2)
                else if ascii_eqb e bs
                then option_map (cons (TChr bs)) (parse_template ngroups t2)
                else None
            end
        end
      else option_map (cons (TChr c)) (parse_template ngroups t1)
  end.

(** A group that took no part in the match expands to the empty string. *)
Fixpoint expand (t : list titem) (g : groups) : text :=
  match t with
  | [] => []
  | TChr c :: t' => c :: expand t' g
  | TRef i :: t' =>
      (match g i with Some v => v | None => [] end) ++ expand t' g
  end.

(** [re.sub] with [count = 0]: every non-overlapping match, scanning from
    the left, is replaced by the expanded template; the scan resumes where
    the match ended, or one character further after an empty match. *)
Fixpoint sub_loop (fuel : nat) (dotall : bool) (r : regex) (t : list titem)
         (s : text) : text :=
  match fuel with
  | 0 => s
  | S f =>
      match re_match dotall r s with
      | Some (rest, g) =>
          if length rest <? length s
          then expand t g ++ sub_loop f dotall r t rest
          else expand t g ++
               match s with
               | [] => []
               | c :: s' => c :: sub_loop f dotall r t s'
               end
      | None =>
          match s with
          | [] => []
          | c :: s' => c :: sub_loop f dotall r t s'
          end
      end
  end.

(** ** Exceptions and results *)

Inductive exn : Type :=
| FileNotFoundError
| PermissionError
| ReError.

Definition result (A : Type) : Type := (exn + A)%type.

Definition re_sub (pattern repl content : text) (dotall : bool) : result text :=
  match re_compile pattern with
  | None => inl ReError
  | Some (r, ngroups) =>
      match parse_template ngroups repl with
      | None => inl ReError
      | Some t => inr (sub_loop (S (length content)) dotall r t content)
      end
  end.

(** ** The script *)

Definition completed_tasks : list nat := seq 1 30.

Definition task_id (task_num : nat) : text :=
  lit "TASK-" ++ format_03d task_num.

Definition pattern (task_num : nat) : text :=
  lit "(- task_id: " ++ [dq] ++ task_id task_num ++ [dq]
    ++ lit ".*?)status: " ++ [dq] ++ lit "pending" ++ [dq].

Definition replacement : text :=
  lit "\1status: " ++ [dq] ++ lit "completed" ++ [dq]
    ++ lit "\n      completed_date: " ++ [dq] ++ lit "2025-11-05" ++ [dq].

(** One pass of the loop body, and the whole loop over the in-memory text. *)
Definition loop_body (task_num : nat) (content : text) : result text :=
  let pattern := pattern task_num in
  let replacement := replacement in
  re_sub pattern replacement content true.

Fixpoint for_each (ns : list nat) (body : nat -> text -> result text)
         (content : text) : result text :=
  match ns with
  | [] => inr content
  | n :: ns' =>
      match body n content with
      | inl e => inl e
      | inr content' => for_each ns' body content'
      end
  end.

Definition update_tasks (content : text) : result text :=
  for_each completed_tasks loop_body content.

(** ** The world the script runs in

    Files with their permissions, a clock and an environment (neither of
    which the script consults), and the log of the effects performed. *)

Definition path := text.

Record file : Type := File {
  content : text;
  readable : bool;
  writable : bool
}.

Inductive event : Type :=
| EvRead : path -> event
| EvWrite : path -> text -> event
| EvPrint : text -> event.

Record world : Type := World {
  files : path -> option file;
  clock : nat;
  environ : text -> option text;
  log : list event
}.

Fixpoint text_eqb (a b : text) : bool :=
  match a, b with
  | [], [] => true
  | c :: a', d :: b' => ascii_eqb c d && text_eqb a' b'
  | _, _ => false
  end.

Definition path_eqb (p q : path) : bool := text_eqb p q.

Definition with_file (p : path) (f : file) (w : world) : world :=
  World (fun q => if path_eqb q p then Some f else files w q)
        (clock w) (environ w) (log w).

Definition emit (e : event) (w : world) : world :=
  World (files w) (clock w) (environ w) (log w ++ [e]).

(** Computations that may raise and that thread the world. *)
Definition io (A : Type) : Type := world -> result A * world.

Definition ret {A : Type} (a : A) : io A := fun w => (inr a, w).

Definition raise {A : Type} (e : exn) : io A := fun w => (inl e, w).

Definition bind {A B : Type} (c : io A) (k : A -> io B) : io B :=
  fun w =>
    match c w with
    | (inl e, w') => (inl e, w')
    | (inr a, w') => k a w'
    end.

Definition lift {A : Type} (r : result A) : io A :=
  match r with
  | inl e => raise e
  | inr a => ret a
  end.

Notation "x <- c ;; k" := (bind c (fun x => k))
  (at level 61, c at next level, right associativity).
Notation "c ;;; k" := (bind c (fun _ => k))
  (at level 61, right associativity).

Definition read_text (p : path) : io text :=
  fun w =>
    match files w p with
    | None => (inl FileNotFoundError, w)
    | Some f =>
        if readable f then (inr (content f), emit (EvRead p) w)
        else (inl PermissionError, w)
    end.

Definition write_text (p : path) (t : text) : io unit :=
  fun w =>
    match files w p with
    | None => (inr tt, emit (EvWrite p t) (with_file p (File t true true) w))
    | Some f =>
        if writable f
        then (inr tt,
              emit (EvWrite p t) (with_file p (File t (readable f) true) w))
        else (inl PermissionError, w)
    end.

Definition print (t : text) : io unit :=
  fun w => (inr tt, emit (EvPrint t) w).

Definition task_plan_path : path :=
  lit "C:\Users\User\Desktop\SurveyBot\agents\out\task-plan.yaml".

Definition main : io unit :=
  content <- read_text task_plan_path ;;
  content <- lift (update_tasks content) ;;
  write_text task_plan_path content ;;;
  print (lit "Updated " ++ str_of_nat (length completed_tasks)
           ++ lit " tasks to completed status").

(** ** Vocabulary of the statements *)

(** The literal the pattern starts with, the field it ends with, and the
    text the template puts in place of that field. *)
Definition item_key (task_num : nat) : text :=
  lit "- task_id: " ++ [dq] ++ task_id task_num ++ [dq].

Definition pending_field : text :=
  lit "status: " ++ [dq] ++ lit "pending" ++ [dq].

Definition completed_field : text :=
  lit "status: " ++ [dq] ++ lit "completed" ++ [dq] ++ [nl]
    ++ lit "      completed_date: " ++ [dq] ++ lit "2025-11-05" ++ [dq].

Definition in_range (n : nat) : Prop := 1 <= n <= 30.

(** A literal as a regex: its characters in sequence, then [r]. *)
Definition lits (l : text) (r : regex) : regex :=
  fold_right (fun c r' => Cat (Chr c) r') r l.

(** The shape [(P.*?)S] of the script's patterns. *)
Definition key_then_field (P S : text) : regex :=
  Cat (Grp 1 (lits P (Cat (LazyStar Dot) Eps))) (lits S Eps).

(** The scan of a lazy [.*?] under DOTALL: the first suffix of [s] on which
    the continuation succeeds. *)
Fixpoint lazy_scan {A : Type} (k : text -> groups -> option A) (s : text)
         (g : groups) : option A :=
  match k s g with
  | Some x => Some x
  | None =>
      match s with
      | [] => None
      | _ :: s' => lazy_scan k s' g
      end
  end.

(** [sub_all P S R s]: every match of [(P.*?)S], from the left and without
    overlap, has its final [S] replaced by [R].  A match is the first [P]
    of the text not yet scanned, up to the first [S] after it. *)
Fixpoint sub_all_fuel (fuel : nat) (P S R s : text) : text :=
  match fuel with
  | 0 => s
  | S f =>
      match partition P s with
      | None => s
      | Some (a, r1) =>
          match partition S r1 with
          | None => s
          | Some (m, b) => a ++ P ++ m ++ R ++ sub_all_fuel f P S R b
          end
      end
  end.

Definition sub_all (P S R s : text) : text := sub_all_fuel (length s) P S R s.

(** Only the first match is replaced: [re.sub] with [count = 1]. *)
Definition sub_first (P S R s : text) : text :=
  match partition P s with
  | None => s
  | Some (a, r1) =>
      match partition S r1 with
      | None => s
      | Some (m, b) => a ++ P ++ m ++ R ++ b
      end
  end.

(** The loop as a composition of [sub_all], one per task number. *)
Definition mark_task (content : text) (task_num : nat) : text :=
  sub_all (item_key task_num) pending_field completed_field content.

Definition mark_all (content : text) : text :=
  fold_left mark_task completed_tasks content.

(** [completes S R s t]: [t] is [s] with some occurrences of [S] replaced
    by [R] and every other character kept. *)
Inductive completes (S R : text) : text -> text -> Prop :=
| completes_nil : completes S R [] []
| completes_keep : forall c s t,
    completes S R s t -> completes S R (c :: s) (c :: t)
| completes_mark : forall s t,
    completes S R s t -> completes S R (S ++ s) (R ++ t).

Arguments completes_nil {S R}.
Arguments completes_keep {S R} c {s t} _.
Arguments completes_mark {S R} {s t} _.

(** No occurrence of [p] starts inside [u] when [u] is followed by [y]. *)
Fixpoint nostart (p u y : text) : Prop :=
  match u with
  | [] => True
  | _ :: u' => strip_prefix p (u ++ y) = None /\ nostart p u' y
  end.

(** An occurrence of [p] that starts inside [x], followed by [y], ends
    inside [x]. *)
Fixpoint nostraddle (p x y : text) : Prop :=
  match x with
  | [] => True
  | _ :: x' =>
      (strip_prefix p (x ++ y) <> None -> strip_prefix p x <> None)
      /\ nostraddle p x' y
  end.

(** [compatb p u]: one of [p], [u] is a prefix of the other. *)
Fixpoint compatb (p u : text) : bool :=
  match p, u with
  | [], _ => true
  | _, [] => true
  | c :: p', d :: u' => ascii_eqb c d && compatb p' u'
  end.

(** No suffix of [y] is compatible with [p]: [p] cannot start inside [y]. *)
Fixpoint clearb (p y : text) : bool :=
  match y with
  | [] => true
  | _ :: y' => negb (compatb p y) && clearb p y'
  end.

(** No non-empty suffix of [q] is compatible with [y]. *)
Fixpoint no_enter (q y : text) : bool :=
  match q with
  | [] => true
  | _ :: q' => negb (compatb q y) && no_enter q' y
  end.

(** [p] cannot overlap an occurrence of [y] in any text. *)
Definition apart (p y : text) : bool :=
  clearb p y && no_enter (tl p) y.

(** *** Checks that are settled by computation *)

Definition regex_eq_dec (a b : regex) : {a = b} + {a <> b}.
Proof. decide equality; [apply ascii_dec | apply Nat.eq_dec]. Defined.

(** The pattern of task [n] compiles to [(P.*?)S] with one group. *)
Definition compiles_to (n : nat) : bool :=
  match re_compile (pattern n) with
  | Some (r, ngroups) =>
      (if regex_eq_dec r (key_then_field (item_key n) pending_field)
       then true else false) && (ngroups =? 1)
  | None => false
  end.

(** The key of task [n] overlaps neither the pending field nor itself. *)
Definition key_checks (n : nat) : bool :=
  compiles_to n
  && apart pending_field (item_key n)
  && no_enter (tl (item_key n)) (item_key n).

(** *** The loop, one [re.sub] after the other *)

Inductive steps : list nat -> text -> text -> Prop :=
| steps_nil : forall c, steps [] c c
| steps_cons : forall n ns c c' c'',
    re_sub (pattern n) replacement c true = inr c' ->
    steps ns c' c'' -> steps (n :: ns) c c''.

(** [kept X n a m b d]: [d] is [a], the key of task [n], [m], the field
    [X] and [b], where [a] and [b] may have had fields completed. *)
Definition kept (X : text) (n : nat) (a m b d : text) : Prop :=
  exists a' b',
    completes pending_field completed_field a a' /\
    completes pending_field completed_field b b' /\
    d = a' ++ item_key n ++ m ++ X ++ b'.

(** *** Sample documents and worlds *)

(** A record as the task plan writes it: the key, then the status. *)
Definition task_record (n : nat) (status : text) : text :=
  item_key n ++ [nl] ++ lit "  status: " ++ [dq] ++ status ++ [dq; nl].

Definition completed_record (n : nat) : text :=
  item_key n ++ [nl] ++ lit "  " ++ completed_field ++ [nl].

(** The key as the specification spells it, without the list dash. *)
Definition bare_key (n : nat) : text :=
  lit "task_id: " ++ [dq] ++ task_id n ++ [dq].

Definition doc_last_then_outside : text :=
  task_record 30 (lit "pending") ++ task_record 31 (lit "pending").

Definition doc_duplicate : text :=
  task_record 1 (lit "pending") ++ task_record 1 (lit "pending").

Definition doc_no_dash : text :=
  lit "  " ++ bare_key 5 ++ [nl] ++ lit "  status: " ++ [dq]
    ++ lit "pending" ++ [dq; nl].

Definition doc_five : text :=
  task_record 4 (lit "completed") ++ task_record 5 (lit "pending")
    ++ task_record 6 (lit "pending").

Definition world_of (doc : text) (now : nat) (env : text -> option text)
  : world :=
  World (fun q => if path_eqb q task_plan_path
                  then Some (File doc true true) else None)
        now env [].

Definition report : text := lit "Updated 30 tasks to completed status".

Definition no_env : text -> option text := fun _ => None.

Definition other_env : text -> option text := fun _ => Some (lit "1").

Definition empty_world : world := World (fun _ => None) 0 no_env [].

(** The parts of [doc_five] around the pending field of TASK-005. *)
Definition five_before : text := task_record 4 (lit "completed").
Definition five_between : text := [nl] ++ lit "  ".
Definition five_after : text := [nl] ++ task_record 6 (lit "pending").

(** The task numbers in the order the loop takes them. *)
Definition one_to_thirty : list nat :=
  [1; 2; 3; 4; 5; 6; 7; 8; 9; 10; 11; 12; 13; 14; 15;
   16; 17; 18; 19; 20; 21; 22; 23; 24; 25; 26; 27; 28; 29; 30].

Definition is_print (e : event) : bool :=
  match e with
  | EvPrint _ => true
  | _ => false
  end.

(** *** Vocabulary of the further properties *)

(** [int(s)] for a string of decimal digits; [None] where [int] raises:
    on the empty string and on a character that is not a digit. *)
Fixpoint int_digits (v : nat) (s : text) : option nat :=
  match s with
  | [] => Some v
  | c :: s' =>
      match digit_val c with
      | Some d => int_digits (10 * v + d) s'
      | None => None
      end
  end.

Definition int_of (s : text) : option nat :=
  match s with
  | [] => None
  | _ :: _ => int_digits 0 s
  end.

(** The pattern [(P.*?)S] matches somewhere in [s]: [P] occurs and [S]
    occurs after its first occurrence. *)
Definition has_match (P S s : text) : bool :=
  match partition P s with
  | Some (_, r1) =>
      match partition S r1 with
      | Some _ => true
      | None => false
      end
  | None => false
  end.

(** No key of a task in range can start inside the text before another
    key and run into it. *)
Definition keys_apart : bool :=
  forallb (fun n =>
             forallb (fun k => no_enter (tl (item_key n)) (item_key k))
                     completed_tasks)
          completed_tasks.

(** A plan that can be read and not written. *)
Definition read_only_world (doc : text) : world :=
  World (fun q => if path_eqb q task_plan_path
                  then Some (File doc true false) else None)
        0 no_env [].

(** A summary that stands before the first task of a plan. *)
Definition summary : text :=
  lit "open: " ++ pending_field ++ [nl] ++ lit "tasks:" ++ [nl].

(** A world with the plan and one more file. *)
Definition notes_path : path := lit "notes.txt".

Definition two_files_world (doc : text) : world :=
  World (fun q => if path_eqb q task_plan_path
                  then Some (File doc true true)
                  else if path_eqb q notes_path
                       then Some (File (lit "keep") true true)
                       else None)
        0 no_env [].

Definition no_key_in (a : text) : bool :=
  forallb (fun n => match partition (item_key n) a with
                    | None => true
                    | Some _ => false
                    end) completed_tasks.

(** *** The key as the specification spells it *)

(** The list dash, [task_id:], an opening quote, [TASK-], the task number
    as three decimal digits with leading zeros, and the closing quote. *)
Definition decimal_digit (d : nat) : ascii :=
  nth d (lit "0123456789") "0"%char.

Definition three_digits (n : nat) : text :=
  [decimal_digit (n / 100); decimal_digit (n / 10 mod 10);
   decimal_digit (n mod 10)].

Definition list_item (n : nat) : text :=
  lit "- task_id: " ++ [dq] ++ lit "TASK-" ++ three_digits n ++ [dq].

(** The date of the template, and what the template puts before it. *)
Definition date_stamp : text := lit "2025-11-05".

Definition stamp_before : text :=
  lit "status: " ++ [dq] ++ lit "completed" ++ [dq] ++ [nl]
    ++ lit "      completed_date: " ++ [dq].

(** A plan written out character by character: TASK-004 completed, then
    TASK-005 and TASK-006 pending. *)
Definition plan_before : text :=
  lit "- task_id: " ++ [dq] ++ lit "TASK-004" ++ [dq] ++ [nl]
    ++ lit "  status: " ++ [dq] ++ lit "completed" ++ [dq] ++ [nl].

Definition plan_key_five : text :=
  lit "- task_id: " ++ [dq] ++ lit "TASK-005" ++ [dq].

Definition plan_between : text := [nl] ++ lit "  ".

Definition plan_after : text :=
  [nl] ++ lit "- task_id: " ++ [dq] ++ lit "TASK-006" ++ [dq] ++ [nl]
    ++ lit "  status: " ++ [dq] ++ lit "pending" ++ [dq] ++ [nl].

Definition plan_written_out : text :=
  plan_before ++ plan_key_five ++ plan_between
    ++ lit "status: " ++ [dq] ++ lit "pending" ++ [dq] ++ plan_after.

(** * Properties *)

(** ** Prefixes and first occurrences *)

Lemma ascii_eqb_true (a b : ascii) : ascii_eqb a b = true -> a = b.
Proof. apply Ascii.eqb_eq. Qed.

Lemma ascii_eqb_refl (a : ascii) : ascii_eqb a a = true.
Proof. apply Ascii.eqb_refl. Qed.

Lemma strip_prefix_app (p r : text) : strip_prefix p (p ++ r) = Some r.
Proof.
  induction p as [|c p IH]; simpl; [reflexivity|].
  now rewrite ascii_eqb_refl.
Qed.

Lemma strip_prefix_Some (p s r : text) :
  strip_prefix p s = Some r -> s = p ++ r.
Proof.
  revert s; induction p as [|c p IH]; intros s H; simpl in *.
  - now inversion H.
  - destruct s as [|d s]; [discriminate|].
    destruct (ascii_eqb c d) eqn:E; [|discriminate].
    apply ascii_eqb_true in E; subst d.
    now rewrite (IH _ H).
Qed.

Lemma strip_prefix_ext (p s r y : text) :
  strip_prefix p s = Some r -> strip_prefix p (s ++ y) = Some (r ++ y).
Proof.
  intros H. apply strip_prefix_Some in H. subst s.
  rewrite <- app_assoc. apply strip_prefix_app.
Qed.

Lemma strip_prefix_None_ext (p s y : text) :
  strip_prefix p (s ++ y) = None -> strip_prefix p s = None.
Proof.
  intros H. destruct (strip_prefix p s) as [r|] eqn:E; [|reflexivity].
  rewrite (strip_prefix_ext _ _ _ y E) in H. discriminate.
Qed.

Lemma strip_prefix_compat (p u y r : text) :
  strip_prefix p (u ++ y) = Some r -> compatb p u = true.
Proof.
  revert u; induction p as [|c p IH]; intros u H; [reflexivity|].
  destruct u as [|d u]; [reflexivity|]. simpl in *.
  destruct (ascii_eqb c d); [|discriminate]. simpl. eauto.
Qed.

Lemma strip_prefix_split (p x w r : text) :
  strip_prefix p (x ++ w) = Some r ->
  strip_prefix p x <> None \/
  exists p2, p = x ++ p2 /\ p2 <> [] /\ strip_prefix p2 w = Some r.
Proof.
  revert x; induction p as [|c p IH]; intros x H.
  - left. simpl. discriminate.
  - destruct x as [|d x].
    + right. exists (c :: p). repeat split; [discriminate | exact H].
    + simpl in H. simpl. destruct (ascii_eqb c d) eqn:E; [|discriminate].
      apply ascii_eqb_true in E; subst d.
      destruct (IH _ H) as [L | (p2 & -> & Hne & Hp2)]; [now left|].
      right. exists p2. now repeat split.
Qed.

Lemma partition_eq (p s : text) :
  partition p s =
  match strip_prefix p s with
  | Some r => Some ([], r)
  | None =>
      match s with
      | [] => None
      | c :: s' =>
          match partition p s' with
          | Some (a, b) => Some (c :: a, b)
          | None => None
          end
      end
  end.
Proof. destruct s; reflexivity. Qed.

Lemma partition_Some (p s a b : text) :
  partition p s = Some (a, b) -> s = a ++ p ++ b /\ nostart p a (p ++ b).
Proof.
  revert a; induction s as [|c s IH]; intros a H; rewrite partition_eq in H.
  - destruct (strip_prefix p []) as [r|] eqn:E; [|discriminate].
    inversion H; subst. apply strip_prefix_Some in E. now split.
  - destruct (strip_prefix p (c :: s)) as [r|] eqn:E.
    + inversion H; subst. apply strip_prefix_Some in E. now split.
    + destruct (partition p s) as [[a' b']|] eqn:Ep; [|discriminate].
      inversion H; subst. destruct (IH _ eq_refl) as [-> Hn].
      split; [reflexivity|]. simpl. split; [exact E | exact Hn].
Qed.

Lemma partition_intro (p a b : text) :
  nostart p a (p ++ b) -> partition p (a ++ p ++ b) = Some (a, b).
Proof.
  induction a as [|c a IH]; intros H; rewrite partition_eq.
  - simpl. now rewrite strip_prefix_app.
  - simpl in H. destruct H as [H1 H2]. simpl app. rewrite H1.
    now rewrite (IH H2).
Qed.

Lemma partition_None (p s : text) :
  partition p s = None -> nostart p s [].
Proof.
  induction s as [|c s IH]; intros H; [exact I|].
  rewrite partition_eq in H.
  destruct (strip_prefix p (c :: s)) eqn:E; [discriminate|].
  destruct (partition p s) as [[a b]|]; [discriminate|].
  simpl. rewrite app_nil_r. split; [exact E | now apply IH].
Qed.

Lemma partition_None_intro (p s : text) :
  p <> [] -> nostart p s [] -> partition p s = None.
Proof.
  intros Hp. induction s as [|c s IH]; intros H; rewrite partition_eq.
  - destruct p; [contradiction | reflexivity].
  - simpl in H. rewrite app_nil_r in H. destruct H as [H1 H2].
    rewrite H1. now rewrite (IH H2).
Qed.

Lemma strip_prefix_None_long (p w y : text) :
  length p <= length w ->
  strip_prefix p w = None -> strip_prefix p (w ++ y) = None.
Proof.
  revert w; induction p as [|c p IH]; intros w Hl H; [discriminate|].
  destruct w as [|d w]; [simpl in Hl; lia|].
  simpl in *. destruct (ascii_eqb c d); [|reflexivity].
  apply IH; [lia | exact H].
Qed.

Lemma partition_app_Some (p s a b y : text) :
  partition p s = Some (a, b) -> partition p (s ++ y) = Some (a, b ++ y).
Proof.
  revert a; induction s as [|c s IH]; intros a H;
    rewrite partition_eq in H; rewrite partition_eq.
  - destruct (strip_prefix p []) as [r|] eqn:E; [|discriminate].
    inversion H; subst. now rewrite (strip_prefix_ext _ _ _ y E).
  - destruct (strip_prefix p (c :: s)) as [r|] eqn:E.
    + inversion H; subst. now rewrite (strip_prefix_ext _ _ _ y E).
    + destruct (partition p s) as [[a' b']|] eqn:Ep; [|discriminate].
      inversion H; subst.
      assert (Hl : length p <= length (c :: s)).
      { apply partition_Some in Ep. destruct Ep as [-> _].
        simpl. rewrite !length_app. lia. }
      rewrite (strip_prefix_None_long _ _ y Hl E). simpl app.
      cbv iota beta. now rewrite (IH _ eq_refl).
Qed.

(** ** Where an occurrence can start *)

Lemma nostart_app (p u v y : text) :
  nostart p u (v ++ y) -> nostart p v y -> nostart p (u ++ v) y.
Proof.
  induction u as [|c u IH]; simpl; intros H Hv; [exact Hv|].
  destruct H as [H1 H2]. split; [|now apply IH].
  now rewrite <- app_assoc.
Qed.

Lemma nostart_weaken (p u y : text) : nostart p u y -> nostart p u [].
Proof.
  induction u as [|c u IH]; simpl; intros H; [exact I|].
  destruct H as [H1 H2]. split; [|now apply IH].
  rewrite app_nil_r. exact (strip_prefix_None_ext p (c :: u) y H1).
Qed.

Lemma nostart_straddle (p u y : text) :
  nostart p u [] -> nostraddle p u y -> nostart p u y.
Proof.
  induction u as [|c u IH]; simpl; intros H Hs; [exact I|].
  destruct H as [H1 H2], Hs as [H3 H4]. split; [|now apply IH].
  rewrite app_nil_r in H1.
  destruct (strip_prefix p (c :: u ++ y)) eqn:E; [|reflexivity].
  exfalso. apply H3; [discriminate | exact H1].
Qed.

Lemma clearb_nostart (p Y : text) :
  clearb p Y = true -> forall y, nostart p Y y.
Proof.
  induction Y as [|c Y IH]; simpl; intros H y; [exact I|].
  apply andb_true_iff in H. destruct H as [H1 H2]. split; [|now apply IH].
  destruct (strip_prefix p (c :: Y ++ y)) eqn:E; [|reflexivity].
  apply (strip_prefix_compat p (c :: Y) y) in E.
  rewrite E in H1. discriminate.
Qed.

Lemma no_enter_suffix (q1 p2 Y : text) :
  no_enter (q1 ++ p2) Y = true -> p2 <> [] -> compatb p2 Y = false.
Proof.
  induction q1 as [|c q1 IH]; simpl; intros H Hne.
  - destruct p2 as [|d p2]; [contradiction|]. simpl in H.
    apply andb_true_iff in H. destruct H as [H _].
    now apply negb_true_iff in H.
  - apply andb_true_iff in H. destruct H as [_ H]. now apply IH.
Qed.

Lemma no_enter_nostraddle (p Y : text) :
  no_enter (tl p) Y = true -> forall x z, nostraddle p x (Y ++ z).
Proof.
  intros H x z. induction x as [|c x IH]; simpl; [exact I|].
  split; [|exact IH]. intros Hs.
  destruct (strip_prefix p (c :: x ++ Y ++ z)) as [r|] eqn:E; [|contradiction].
  destruct (strip_prefix_split p (c :: x) (Y ++ z) r E)
    as [L | (p2 & Hp & Hne & Hp2)]; [exact L|].
  exfalso. subst p. simpl in H.
  apply strip_prefix_compat in Hp2.
  rewrite (no_enter_suffix x p2 Y H Hne) in Hp2. discriminate.
Qed.

Lemma nostraddle_suffix (p u x y : text) :
  nostraddle p (u ++ x) y -> nostraddle p x y.
Proof.
  induction u as [|c u IH]; simpl; intros H; [exact H|].
  destruct H as [_ H]. now apply IH.
Qed.

Lemma compatb_sym (p u : text) : compatb p u = compatb u p.
Proof.
  revert u; induction p as [|c p IH]; intros [|d u]; simpl; try reflexivity.
  rewrite IH. f_equal. unfold ascii_eqb. apply Ascii.eqb_sym.
Qed.

Lemma count_sub_app_ge (p u y : text) :
  count_sub p y <= count_sub p (u ++ y).
Proof.
  induction u as [|c u IH]; simpl; [lia|]. lia.
Qed.

Lemma count_sub_nostart (p u y : text) :
  nostart p u y -> count_sub p (u ++ y) = count_sub p y.
Proof.
  induction u as [|c u IH]; simpl; intros H; [reflexivity|].
  destruct H as [H1 H2]. rewrite H1. simpl. now apply IH.
Qed.

(** ** Documents that differ by completed fields *)

Section Completes.
Variables S R : text.
Hypothesis S_nonempty : S <> [].

Lemma completes_refl (s : text) : completes S R s s.
Proof. induction s; constructor; assumption. Qed.

Lemma completes_app (s1 t1 s2 t2 : text) :
  completes S R s1 t1 -> completes S R s2 t2 ->
  completes S R (s1 ++ s2) (t1 ++ t2).
Proof.
  induction 1 as [|c s t _ IH|s t _ IH]; intros H2; simpl.
  - exact H2.
  - constructor. now apply IH.
  - rewrite <- !app_assoc. constructor. now apply IH.
Qed.

Lemma completes_keep_app (x s t : text) :
  completes S R s t -> completes S R (x ++ s) (x ++ t).
Proof. intros H. apply completes_app; [apply completes_refl | exact H]. Qed.

Lemma completes_inv_cons (c : ascii) (s u : text) :
  completes S R (c :: s) u ->
  (exists t, u = c :: t /\ completes S R s t) \/
  (exists s0 t0, c :: s = S ++ s0 /\ u = R ++ t0 /\ completes S R s0 t0).
Proof.
  intros H. inversion H; subst.
  - left. eauto.
  - right. eauto.
Qed.

Lemma completes_inv_nil (u : text) : completes S R [] u -> u = [].
Proof.
  intros H. inversion H; subst; [reflexivity|].
  match goal with E : S ++ _ = [] |- _ => apply app_eq_nil in E; destruct E end.
  contradiction.
Qed.

(** A stretch in which no [S] starts is copied. *)
Lemma completes_nostart (u y t : text) :
  nostart S u y -> completes S R (u ++ y) t ->
  exists t', t = u ++ t' /\ completes S R y t'.
Proof.
  revert t; induction u as [|c u IH]; simpl; intros t Hn Hc.
  - exists t. now split.
  - destruct Hn as [H1 H2].
    apply completes_inv_cons in Hc.
    destruct Hc as [(t0 & -> & Hc) | (s0 & t0 & Heq & -> & Hc)].
    + destruct (IH _ H2 Hc) as (t' & -> & Ht'). exists t'. now split.
    + rewrite Heq, strip_prefix_app in H1. discriminate.
Qed.

(** A boundary that no [S] straddles splits the rewriting. *)
Lemma completes_split (x y u : text) :
  nostraddle S x y -> completes S R (x ++ y) u ->
  exists x' y', u = x' ++ y' /\ completes S R x x' /\ completes S R y y'.
Proof.
  remember (length x) as n eqn:Hn. revert x u Hn.
  induction n as [n IH] using lt_wf_ind. intros x u Hn Hs Hc.
  destruct x as [|c x].
  - exists [], u. repeat split; [constructor | exact Hc].
  - simpl in Hs. destruct Hs as [Hs1 Hs2]. simpl in Hc.
    apply completes_inv_cons in Hc.
    destruct Hc as [(t0 & -> & Hc) | (s0 & t0 & Heq & -> & Hc)].
    + destruct (IH (length x) ltac:(subst n; simpl; lia) x t0 eq_refl Hs2 Hc)
        as (x' & y' & -> & Hx & Hy).
      exists (c :: x'), y'. repeat split; [now constructor | exact Hy].
    + assert (Hp : strip_prefix S (c :: x ++ y) <> None)
        by (rewrite Heq, strip_prefix_app; discriminate).
      apply Hs1 in Hp.
      destruct (strip_prefix S (c :: x)) as [x1|] eqn:E; [|contradiction].
      apply strip_prefix_Some in E.
      assert (Hs0 : s0 = x1 ++ y).
      { change (c :: x ++ y) with ((c :: x) ++ y) in Heq.
        rewrite E, <- app_assoc in Heq. now apply app_inv_head in Heq. }
      subst s0.
      assert (Hlen : length x1 < n).
      { subst n. rewrite E, length_app.
        destruct S; [contradiction | simpl; lia]. }
      assert (Hs3 : nostraddle S x1 y).
      { apply nostraddle_suffix with (u := tl S).
        destruct S as [|d S']; [contradiction|]. simpl.
        inversion E; subst. exact Hs2. }
      destruct (IH _ Hlen x1 t0 eq_refl Hs3 Hc) as (x' & y' & -> & Hx & Hy).
      exists (R ++ x'), y'. rewrite E, <- app_assoc.
      repeat split; [now constructor | exact Hy].
Qed.

(** What the rewritten text starts with was there before, unless it is
    a part of [R]. *)
Lemma completes_prefix_back (X s t1 : text) :
  no_enter X R = true -> completes S R s (X ++ t1) ->
  exists s1, s = X ++ s1 /\ completes S R s1 t1.
Proof.
  revert s; induction X as [|d X IH]; intros s HX Hc.
  - exists s. now split.
  - change (no_enter (d :: X) R)
      with (negb (compatb (d :: X) R) && no_enter X R) in HX.
    apply andb_true_iff in HX. destruct HX as [HX1 HX2].
    apply negb_true_iff in HX1.
    inversion Hc as [|c s0 t0 H0 E1 E2|s0 t0 H0 E1 E2]; subst.
    + destruct (IH _ HX2 H0) as (s1 & -> & Hs1). exists s1. now split.
    + exfalso.
      assert (Hp : strip_prefix R ((d :: X) ++ t1) = Some t0)
        by (simpl app; rewrite <- E2; apply strip_prefix_app).
      apply strip_prefix_compat in Hp. rewrite compatb_sym in Hp.
      congruence.
Qed.

Hypothesis S_not_into_R : no_enter S R = true.
Hypothesis S_not_in_R : clearb S R = true.

Lemma completes_trans (s t u : text) :
  completes S R s t -> completes S R t u -> completes S R s u.
Proof.
  intros H. revert u. induction H as [|c s t H IH|s t H IH]; intros u Hu.
  - apply completes_inv_nil in Hu. subst. constructor.
  - pose proof (completes_keep c H) as Hct.
    apply completes_inv_cons in Hu.
    destruct Hu as [(t0 & -> & Hu) | (t1 & t0 & Heq & -> & Hu)].
    + constructor. now apply IH.
    + rewrite Heq in Hct.
      destruct (completes_prefix_back S _ _ S_not_into_R Hct)
        as (s1 & Hs1 & Hc1).
      rewrite Hs1. constructor.
      assert (HS : exists d S', S = d :: S' /\ no_enter S' R = true).
      { pose proof S_not_into_R as HR. pose proof S_nonempty as HN.
        destruct S as [|d S']; [contradiction|].
        exists d, S'. split; [reflexivity|].
        change (no_enter (d :: S') R)
          with (negb (compatb (d :: S') R) && no_enter S' R) in HR.
        now apply andb_true_iff in HR. }
      destruct HS as (d & S' & ES & HS').
      rewrite ES in Hs1, Heq. simpl in Hs1, Heq.
      inversion Hs1; inversion Heq; subst c s t.
      specialize (IH (S' ++ t0) (completes_keep_app S' t1 t0 Hu)).
      destruct (completes_prefix_back S' _ _ HS' IH) as (s1' & E & Hc').
      apply app_inv_head in E. now subst s1'.
  - destruct (completes_nostart R t u (clearb_nostart S R S_not_in_R t) Hu)
      as (u' & -> & Hu').
    constructor. now apply IH.
Qed.

(** Rewriting never adds an occurrence of [S]. *)
Lemma completes_count (s t : text) :
  completes S R s t -> count_sub S t <= count_sub S s.
Proof.
  induction 1 as [|c s t H IH|s t H IH].
  - simpl. lia.
  - pose proof (completes_keep c H) as Hct.
    change (count_sub S (c :: t))
      with ((match strip_prefix S (c :: t) with Some _ => 1 | None => 0 end)
            + count_sub S t).
    change (count_sub S (c :: s))
      with ((match strip_prefix S (c :: s) with Some _ => 1 | None => 0 end)
            + count_sub S s).
    destruct (strip_prefix S (c :: t)) as [t1|] eqn:E; [|lia].
    apply strip_prefix_Some in E. rewrite E in Hct.
    destruct (completes_prefix_back S _ _ S_not_into_R Hct) as (s1 & -> & _).
    rewrite strip_prefix_app. lia.
  - rewrite (count_sub_nostart S R t (clearb_nostart S R S_not_in_R t)).
    pose proof (count_sub_app_ge S S s). lia.
Qed.
End Completes.

Lemma no_enter_tl (q y : text) : no_enter q y = true -> no_enter (tl q) y = true.
Proof.
  destruct q as [|c q]; simpl; [trivial|].
  intros H. now apply andb_true_iff in H.
Qed.

Lemma no_enter_nostart (q p : text) :
  no_enter q p = true -> forall y, nostart p q y.
Proof.
  induction q as [|c q IH]; intros H y; [exact I|].
  change (no_enter (c :: q) p)
    with (negb (compatb (c :: q) p) && no_enter q p) in H.
  apply andb_true_iff in H. destruct H as [H1 H2].
  apply negb_true_iff in H1. split; [|now apply IH].
  destruct (strip_prefix p ((c :: q) ++ y)) eqn:E; [|reflexivity].
  apply strip_prefix_compat in E. rewrite compatb_sym in E. congruence.
Qed.

Lemma nostart_suffix (p u v y : text) : nostart p (u ++ v) y -> nostart p v y.
Proof.
  induction u as [|c u IH]; simpl; intros H; [exact H|].
  destruct H as [_ H]. now apply IH.
Qed.

Lemma app_suffix (x r y s : text) :
  x ++ r = y ++ s -> length y <= length x -> exists u, s = u ++ r.
Proof.
  revert x; induction y as [|d y IH]; intros x H Hl.
  - exists x. now rewrite H.
  - destruct x as [|e x]; [simpl in Hl; lia|].
    simpl in H. inversion H; subst. apply (IH x); [assumption | simpl in Hl; lia].
Qed.

(** ** The replace-all function *)

Section SubAll.
Variables P S R : text.
Hypothesis S_nonempty : S <> [].

Lemma S_length : 0 < length S.
Proof. pose proof S_nonempty. destruct S; [contradiction | simpl; lia]. Qed.

Lemma match_shorter (s a r1 m b : text) :
  partition P s = Some (a, r1) -> partition S r1 = Some (m, b) ->
  length b < length s.
Proof.
  intros H1 H2. apply partition_Some in H1, H2.
  destruct H1 as [-> _], H2 as [-> _].
  rewrite !length_app. pose proof S_length. lia.
Qed.

Lemma sub_all_fuel_indep (f1 f2 : nat) (s : text) :
  length s <= f1 -> length s <= f2 ->
  sub_all_fuel f1 P S R s = sub_all_fuel f2 P S R s.
Proof.
  revert f2 s; induction f1 as [|f1 IH]; intros f2 s H1 H2.
  - destruct f2 as [|f2]; [reflexivity|]. simpl.
    destruct (partition P s) as [[a r1]|] eqn:E1; [|reflexivity].
    destruct (partition S r1) as [[m b]|] eqn:E2; [|reflexivity].
    pose proof (match_shorter _ _ _ _ _ E1 E2). lia.
  - destruct f2 as [|f2]; simpl;
      destruct (partition P s) as [[a r1]|] eqn:E1; try reflexivity;
      destruct (partition S r1) as [[m b]|] eqn:E2; try reflexivity;
      pose proof (match_shorter _ _ _ _ _ E1 E2); [lia|].
    do 4 f_equal. apply IH; lia.
Qed.

Lemma sub_all_step (s a r1 m b : text) :
  partition P s = Some (a, r1) -> partition S r1 = Some (m, b) ->
  sub_all P S R s = a ++ P ++ m ++ R ++ sub_all P S R b.
Proof.
  intros E1 E2. pose proof (match_shorter _ _ _ _ _ E1 E2) as Hl.
  unfold sub_all. destruct (length s) as [|n] eqn:En; [lia|].
  simpl. rewrite E1, E2. do 4 f_equal. apply sub_all_fuel_indep; lia.
Qed.

Lemma sub_all_nokey (s : text) :
  partition P s = None -> sub_all P S R s = s.
Proof.
  intros E. unfold sub_all. destruct (length s); simpl; [reflexivity|].
  now rewrite E.
Qed.

Lemma sub_all_nofield (s a r1 : text) :
  partition P s = Some (a, r1) -> partition S r1 = None ->
  sub_all P S R s = s.
Proof.
  intros E1 E2. unfold sub_all. destruct (length s); simpl; [reflexivity|].
  now rewrite E1, E2.
Qed.

(** The function only turns occurrences of [S] into [R]. *)
Lemma completes_sub_all (s : text) : completes S R s (sub_all P S R s).
Proof.
  remember (length s) as n eqn:Hn. revert s Hn.
  induction n as [n IH] using lt_wf_ind. intros s Hn.
  destruct (partition P s) as [[a r1]|] eqn:E1.
  - destruct (partition S r1) as [[m b]|] eqn:E2.
    + rewrite (sub_all_step _ _ _ _ _ E1 E2).
      pose proof (match_shorter _ _ _ _ _ E1 E2) as Hl.
      apply partition_Some in E1, E2.
      destruct E1 as [-> _], E2 as [-> _].
      do 3 apply completes_keep_app. constructor.
      apply (IH (length b)); [rewrite !length_app in *; lia | reflexivity].
    + rewrite (sub_all_nofield _ _ _ E1 E2). apply completes_refl.
  - rewrite (sub_all_nokey _ E1). apply completes_refl.
Qed.

(** A position at which the pattern does not match is copied. *)
Lemma sub_all_skip (c : ascii) (s' : text) :
  match strip_prefix P (c :: s') with
  | None => True
  | Some s1 => partition S s1 = None
  end ->
  sub_all P S R (c :: s') = c :: sub_all P S R s'.
Proof.
  intros H.
  destruct (strip_prefix P (c :: s')) as [s1|] eqn:E.
  - assert (E1 : partition P (c :: s') = Some ([], s1))
      by (rewrite partition_eq, E; reflexivity).
    rewrite (sub_all_nofield _ _ _ E1 H). f_equal. symmetry.
    destruct (partition P s') as [[a r1]|] eqn:E2;
      [|now apply sub_all_nokey].
    apply (sub_all_nofield _ _ _ E2).
    apply strip_prefix_Some in E. apply partition_Some in E2.
    destruct E2 as [E2 _]. rewrite E2 in E.
    change (c :: a ++ P ++ r1) with ((c :: a) ++ P ++ r1) in E.
    rewrite app_assoc in E.
    destruct (app_suffix _ _ _ _ E) as [u Hu];
      [rewrite length_app; lia|].
    subst s1. apply partition_None_intro; [exact S_nonempty|].
    apply partition_None in H. now apply nostart_suffix in H.
  - clear H.
    assert (E1 : partition P (c :: s') =
                 match partition P s' with
                 | Some (a, b) => Some (c :: a, b)
                 | None => None
                 end) by (rewrite partition_eq, E; reflexivity).
    destruct (partition P s') as [[a r1]|] eqn:E2.
    + destruct (partition S r1) as [[m b]|] eqn:E3.
      * now rewrite (sub_all_step _ _ _ _ _ E1 E3), (sub_all_step _ _ _ _ _ E2 E3).
      * now rewrite (sub_all_nofield _ _ _ E1 E3), (sub_all_nofield _ _ _ E2 E3).
    + now rewrite (sub_all_nokey _ E1), (sub_all_nokey _ E2).
Qed.

(** *** A key, its first field, and what a pass does to them *)

Hypothesis S_unbordered : no_enter (tl S) S = true.
Hypothesis S_not_into_R : no_enter S R = true.
Hypothesis S_not_in_R : clearb S R = true.
Hypothesis S_apart_P : apart S P = true.
Hypothesis P_unbordered : no_enter (tl P) P = true.

Lemma S_not_in_P : clearb S P = true.
Proof.
  pose proof S_apart_P as H. unfold apart in H.
  now apply andb_true_iff in H.
Qed.

Lemma S_not_into_P : no_enter (tl S) P = true.
Proof.
  pose proof S_apart_P as H. unfold apart in H.
  now apply andb_true_iff in H.
Qed.

(** If [S] does not occur in [m], no [S] starts in [m] whatever of [S]
    or [R] follows. *)
Lemma field_first_S (m b : text) : nostart S m [] -> nostart S m (S ++ b).
Proof.
  intros H. apply nostart_straddle; [exact H|].
  apply no_enter_nostraddle. exact S_unbordered.
Qed.

Lemma field_first_R (m b : text) : nostart S m [] -> nostart S m (R ++ b).
Proof.
  intros H. apply nostart_straddle; [exact H|].
  apply no_enter_nostraddle. apply no_enter_tl. exact S_not_into_R.
Qed.

Lemma key_block_nostart (m X b : text) :
  nostart S m (X ++ b) -> nostart S (P ++ m) (X ++ b).
Proof.
  intros H. apply nostart_app; [|exact H].
  apply clearb_nostart. exact S_not_in_P.
Qed.

(** The pass for [P] replaces the first [S] after any occurrence of [P]. *)
Lemma sub_all_marks (a m b : text) :
  nostart S m [] ->
  exists a', completes S R a a' /\
    sub_all P S R (a ++ P ++ m ++ S ++ b) =
    a' ++ P ++ m ++ R ++ sub_all P S R b.
Proof.
  intros Hm. remember (length a) as n eqn:Hn. revert a Hn.
  induction n as [n IH] using lt_wf_ind. intros a Hn.
  assert (Hfield : partition S (m ++ S ++ b) = Some (m, b))
    by (apply partition_intro, field_first_S, Hm).
  destruct (partition P a) as [[a0 a1]|] eqn:Ea.
  - pose proof (partition_app_Some _ _ _ _ (P ++ m ++ S ++ b) Ea) as E1.
    apply partition_Some in Ea. destruct Ea as [Ea _].
    destruct (partition S a1) as [[m0 a2]|] eqn:Ea1.
    + pose proof (partition_app_Some _ _ _ _ (P ++ m ++ S ++ b) Ea1) as E2.
      rewrite (sub_all_step _ _ _ _ _ E1 E2).
      apply partition_Some in Ea1. destruct Ea1 as [Ea1 _].
      assert (Hlt : length a2 < n)
        by (pose proof S_length; subst n a a1; rewrite !length_app; lia).
      destruct (IH _ Hlt a2 eq_refl) as (a2' & Ha2 & Hsub).
      rewrite Hsub. exists (a0 ++ P ++ m0 ++ R ++ a2'). split.
      * subst a a1. do 3 apply completes_keep_app. now constructor.
      * now rewrite <- !app_assoc.
    + assert (E2 : partition S (a1 ++ P ++ m ++ S ++ b)
                   = Some (a1 ++ P ++ m, b)).
      { replace (a1 ++ P ++ m ++ S ++ b) with ((a1 ++ P ++ m) ++ S ++ b)
          by now rewrite <- !app_assoc.
        apply partition_intro.
        replace (a1 ++ P ++ m) with (a1 ++ (P ++ m)) by reflexivity.
        apply nostart_app.
        - rewrite <- app_assoc. apply nostart_straddle.
          + now apply partition_None.
          + apply no_enter_nostraddle. exact S_not_into_P.
        - apply key_block_nostart, field_first_S, Hm. }
      rewrite (sub_all_step _ _ _ _ _ E1 E2). exists a. split.
      * apply completes_refl.
      * subst a. now rewrite <- !app_assoc.
  - assert (E1 : partition P (a ++ P ++ m ++ S ++ b)
                 = Some (a, m ++ S ++ b)).
    { apply partition_intro. apply nostart_straddle.
      - now apply partition_None.
      - apply no_enter_nostraddle. exact P_unbordered. }
    rewrite (sub_all_step _ _ _ _ _ E1 Hfield). exists a. split.
    + apply completes_refl.
    + reflexivity.
Qed.

(** A key, the text up to its field and the completed field stay as they
    are in every rewriting of the document. *)
Lemma completed_block_kept (a m b u : text) :
  nostart S m [] ->
  completes S R (a ++ P ++ m ++ R ++ b) u ->
  exists a' b', completes S R a a' /\ completes S R b b' /\
                u = a' ++ P ++ m ++ R ++ b'.
Proof.
  intros Hm Hc.
  destruct (completes_split S R S_nonempty a (P ++ m ++ R ++ b) u
              (no_enter_nostraddle S P S_not_into_P a (m ++ R ++ b)) Hc)
    as (a' & u1 & -> & Ha & H1).
  rewrite app_assoc in H1.
  destruct (completes_nostart S R (P ++ m) (R ++ b) u1
              (key_block_nostart m R b (field_first_R m b Hm)) H1)
    as (u2 & -> & H2).
  destruct (completes_nostart S R R b u2
              (clearb_nostart S R S_not_in_R b) H2)
    as (b' & -> & Hb).
  exists a', b'. repeat split; try assumption.
  now rewrite <- !app_assoc.
Qed.

(** A pending block is kept or completed, nothing else. *)
Lemma pending_block_kept (a m b u : text) :
  nostart S m [] ->
  completes S R (a ++ P ++ m ++ S ++ b) u ->
  exists a' b', completes S R a a' /\ completes S R b b' /\
                (u = a' ++ P ++ m ++ S ++ b' \/ u = a' ++ P ++ m ++ R ++ b').
Proof.
  intros Hm Hc.
  destruct (completes_split S R S_nonempty a (P ++ m ++ S ++ b) u
              (no_enter_nostraddle S P S_not_into_P a (m ++ S ++ b)) Hc)
    as (a' & u1 & -> & Ha & H1).
  rewrite app_assoc in H1.
  destruct (completes_nostart S R (P ++ m) (S ++ b) u1
              (key_block_nostart m S b (field_first_S m b Hm)) H1)
    as (u2 & -> & H2).
  pose proof S_nonempty as HN. pose proof S_unbordered as HU.
  destruct S as [|d S'] eqn:ES; [contradiction|]. simpl in HU.
  simpl in H2. inversion H2 as [|c s0 t0 H0 E1 E2|s0 t0 H0 E1 E2]; subst.
  - destruct (completes_nostart (d :: S') R S' b t0
                (no_enter_nostart S' (d :: S') HU b) H0)
      as (b' & -> & Hb).
    exists a', b'. repeat split; try assumption.
    left. now rewrite <- !app_assoc.
  - change (d :: S' ++ s0) with ((d :: S') ++ s0) in E1.
    change (d :: S' ++ b) with ((d :: S') ++ b) in E1.
    apply app_inv_head in E1. subst s0.
    exists a', t0. repeat split; try assumption.
    right. now rewrite <- !app_assoc.
Qed.
End SubAll.

(** ** The regex engine on a pattern [(P.*?)S] *)

Section Engine.
Variables P S R : text.
Hypothesis S_nonempty : S <> [].

Lemma rmatch_lits (A : Type) (l : text) (r : regex) (s : text) (g : groups)
      (k : text -> groups -> option A) :
  rmatch true (lits l r) s g k =
  match strip_prefix l s with
  | Some s' => rmatch true r s' g k
  | None => None
  end.
Proof.
  revert s; induction l as [|c l IH]; intros s; [reflexivity|].
  change (lits (c :: l) r) with (Cat (Chr c) (lits l r)).
  destruct s as [|d s]; [reflexivity|].
  cbn [rmatch strip_prefix]. destruct (ascii_eqb c d); [apply IH | reflexivity].
Qed.

Lemma rmatch_lazy_dot (A : Type) (s : text) (g : groups)
      (k : text -> groups -> option A) :
  rmatch true (LazyStar Dot) s g k = lazy_scan k s g.
Proof.
  cbn [rmatch].
  match goal with
  | |- ?f (length s) s g = _ =>
      assert (H : forall fuel s0, length s0 <= fuel ->
                                  f fuel s0 g = lazy_scan k s0 g)
  end.
  { induction fuel as [|fuel IH]; intros s0 Hl.
    - destruct s0; [|simpl in Hl; lia]. simpl. now destruct (k [] g).
    - destruct s0 as [|d s0]; simpl; destruct (k _ g); try reflexivity.
      replace (length s0 <? Datatypes.S (length s0)) with true
        by (symmetry; apply Nat.ltb_lt; lia). apply IH. simpl in Hl. lia. }
  apply H. lia.
Qed.

Lemma lazy_scan_ext (A : Type) (k k' : text -> groups -> option A)
      (s : text) (g : groups) :
  (forall s' g', k s' g' = k' s' g') -> lazy_scan k s g = lazy_scan k' s g.
Proof.
  intros H. induction s as [|c s IH]; simpl; rewrite H;
    destruct (k' _ g); congruence.
Qed.

Lemma lazy_scan_partition (A : Type) (F : text -> groups -> A)
      (s : text) (g : groups) :
  lazy_scan (fun s' g' =>
               match strip_prefix S s' with
               | Some b => Some (F b g')
               | None => None
               end) s g =
  match partition S s with
  | Some (_, b) => Some (F b g)
  | None => None
  end.
Proof.
  induction s as [|c s IH]; rewrite partition_eq; cbn [lazy_scan].
  - now destruct (strip_prefix S []).
  - destruct (strip_prefix S (c :: s)); [reflexivity|].
    rewrite IH. now destruct (partition S s) as [[a b]|].
Qed.

(** A match of [(P.*?)S] at the start of [s]: [P], then everything up to
    the first [S]; group 1 holds [P] and what lies before that [S]. *)
Lemma re_match_key_then_field (s : text) :
  re_match true (key_then_field P S) s =
  match strip_prefix P s with
  | None => None
  | Some s1 =>
      match partition S s1 with
      | None => None
      | Some (m, b) => Some (b, set_group 1 (P ++ m) no_groups)
      end
  end.
Proof.
  unfold re_match, key_then_field. cbn [rmatch].
  rewrite rmatch_lits.
  destruct (strip_prefix P s) as [s1|] eqn:EP; [|reflexivity].
  change (rmatch true (Cat (LazyStar Dot) Eps) s1 no_groups ?k) with
    (rmatch true (LazyStar Dot) s1 no_groups k).
  rewrite rmatch_lazy_dot.
  rewrite (lazy_scan_ext _ _
             (fun s' g' =>
                match strip_prefix S s' with
                | Some b =>
                    Some (b, set_group 1
                               (firstn (length s - length (S ++ b)) s) g')
                | None => None
                end)).
  - rewrite (lazy_scan_partition _
               (fun b g' =>
                  (b, set_group 1 (firstn (length s - length (S ++ b)) s) g'))).
    destruct (partition S s1) as [[m b]|] eqn:ES; [|reflexivity].
    apply strip_prefix_Some in EP. apply partition_Some in ES.
    destruct ES as [ES _]. subst s s1. do 3 f_equal.
    replace (length (P ++ m ++ S ++ b) - length (S ++ b))
      with (length (P ++ m)) by (rewrite !length_app; lia).
    rewrite (app_assoc P m). rewrite firstn_app, Nat.sub_diag, firstn_all.
    simpl. apply app_nil_r.
  - intros s' g'. rewrite rmatch_lits.
    destruct (strip_prefix S s') as [b|] eqn:E; [|reflexivity].
    apply strip_prefix_Some in E. subst s'. reflexivity.
Qed.

Lemma expand_chars (l : text) (g : groups) : expand (map TChr l) g = l.
Proof. induction l as [|c l IH]; simpl; [reflexivity | now rewrite IH]. Qed.

Lemma expand_ref_then (v : text) :
  expand (TRef 1 :: map TChr R) (set_group 1 v no_groups) = v ++ R.
Proof. simpl. now rewrite expand_chars. Qed.

(** [re.sub] on such a pattern, with the template [\1] then [R], is
    the replace-all function. *)
Lemma sub_loop_sub_all (fuel : nat) (s : text) :
  length s < fuel ->
  sub_loop fuel true (key_then_field P S) (TRef 1 :: map TChr R) s =
  sub_all P S R s.
Proof.
  revert s; induction fuel as [|fuel IH]; intros s Hl; [lia|].
  cbn [sub_loop]. rewrite re_match_key_then_field.
  destruct (strip_prefix P s) as [s1|] eqn:EP.
  - destruct (partition S s1) as [[m b]|] eqn:ES.
    + assert (E1 : partition P s = Some ([], s1))
        by (rewrite partition_eq, EP; reflexivity).
      pose proof (match_shorter P S S_nonempty _ _ _ _ _ E1 ES) as Hb.
      apply Nat.ltb_lt in Hb. rewrite Hb. apply Nat.ltb_lt in Hb.
      rewrite expand_ref_then, IH by lia.
      rewrite (sub_all_step P S R S_nonempty _ _ _ _ _ E1 ES).
      now rewrite <- !app_assoc.
    + destruct s as [|c s].
      * symmetry. apply sub_all_nofield with (a := []) (r1 := s1);
          [rewrite partition_eq, EP; reflexivity | exact ES].
      * rewrite IH by (simpl in Hl; lia).
        symmetry. apply sub_all_skip; [exact S_nonempty|].
        now rewrite EP.
  - destruct s as [|c s].
    + symmetry. apply sub_all_nokey. rewrite partition_eq, EP. reflexivity.
    + rewrite IH by (simpl in Hl; lia).
      symmetry. apply sub_all_skip; [exact S_nonempty|].
      now rewrite EP.
Qed.
End Engine.

(** ** The script's patterns and template *)

Lemma in_range_In (n : nat) : in_range n -> In n completed_tasks.
Proof. unfold in_range, completed_tasks. intros H. apply in_seq. lia. Qed.

Lemma key_checks_all : forallb key_checks completed_tasks = true.
Proof. vm_compute. reflexivity. Qed.

Lemma key_checks_range (n : nat) : in_range n -> key_checks n = true.
Proof.
  intros H. apply (proj1 (forallb_forall _ _) key_checks_all).
  now apply in_range_In.
Qed.

Lemma compile_pattern (n : nat) :
  in_range n ->
  re_compile (pattern n) = Some (key_then_field (item_key n) pending_field, 1).
Proof.
  intros H. pose proof (key_checks_range n H) as K. unfold key_checks in K.
  apply andb_true_iff in K. destruct K as [K _].
  apply andb_true_iff in K. destruct K as [K _].
  unfold compiles_to in K.
  destruct (re_compile (pattern n)) as [[r g]|]; [|discriminate].
  apply andb_true_iff in K. destruct K as [K1 K2].
  destruct (regex_eq_dec r (key_then_field (item_key n) pending_field));
    [|discriminate].
  apply Nat.eqb_eq in K2. now subst.
Qed.

Lemma key_apart (n : nat) :
  in_range n -> apart pending_field (item_key n) = true.
Proof.
  intros H. pose proof (key_checks_range n H) as K. unfold key_checks in K.
  apply andb_true_iff in K. destruct K as [K _].
  now apply andb_true_iff in K.
Qed.

Lemma key_unbordered (n : nat) :
  in_range n -> no_enter (tl (item_key n)) (item_key n) = true.
Proof.
  intros H. pose proof (key_checks_range n H) as K. unfold key_checks in K.
  now apply andb_true_iff in K.
Qed.

Lemma pending_nonempty : pending_field <> [].
Proof. discriminate. Qed.

Lemma pending_unbordered : no_enter (tl pending_field) pending_field = true.
Proof. vm_compute. reflexivity. Qed.

Lemma pending_not_into_completed : no_enter pending_field completed_field = true.
Proof. vm_compute. reflexivity. Qed.

Lemma pending_not_in_completed : clearb pending_field completed_field = true.
Proof. vm_compute. reflexivity. Qed.

Lemma template_parsed :
  parse_template 1 replacement = Some (TRef 1 :: map TChr completed_field).
Proof. vm_compute. reflexivity. Qed.

(** The loop body is the replace-all function for the key of its task. *)
Lemma loop_body_mark_task (n : nat) (content : text) :
  in_range n -> loop_body n content = inr (mark_task content n).
Proof.
  intros H. unfold loop_body, re_sub. cbv zeta.
  rewrite (compile_pattern n H), template_parsed. f_equal.
  apply sub_loop_sub_all; [exact pending_nonempty | lia].
Qed.

Lemma for_each_marks (l : list nat) (content : text) :
  (forall n, In n l -> in_range n) ->
  for_each l loop_body content = inr (fold_left mark_task l content).
Proof.
  revert content; induction l as [|n l IH]; intros content Hl; [reflexivity|].
  simpl. rewrite loop_body_mark_task by (apply Hl; now left).
  apply IH. intros k Hk. apply Hl. now right.
Qed.

Lemma update_tasks_mark_all (content : text) :
  update_tasks content = inr (mark_all content).
Proof.
  apply for_each_marks. intros n Hn. unfold completed_tasks in Hn.
  apply in_seq in Hn. unfold in_range. lia.
Qed.

Lemma report_text :
  lit "Updated " ++ str_of_nat (length completed_tasks)
    ++ lit " tasks to completed status" = report.
Proof. reflexivity. Qed.

(** A run on a readable and writable plan. *)
Lemma main_run (w : world) (f : file) :
  files w task_plan_path = Some f ->
  readable f = true -> writable f = true ->
  main w =
  (inr tt,
   emit (EvPrint report)
     (emit (EvWrite task_plan_path (mark_all (content f)))
        (with_file task_plan_path
           (File (mark_all (content f)) (readable f) true)
           (emit (EvRead task_plan_path) w)))).
Proof.
  intros Hf Hr Hw. unfold main, bind, read_text.
  rewrite Hf, Hr, update_tasks_mark_all. unfold lift, ret, write_text.
  cbn [files emit]. rewrite Hf, Hw. unfold print. now rewrite report_text, Hr.
Qed.

Lemma text_eqb_refl (t : text) : text_eqb t t = true.
Proof.
  induction t as [|c t IH]; simpl; [reflexivity|].
  now rewrite ascii_eqb_refl.
Qed.

Lemma text_eqb_eq (a b : text) : text_eqb a b = true -> a = b.
Proof.
  revert b; induction a as [|c a IH]; intros [|d b] H; simpl in H;
    try discriminate; [reflexivity|].
  apply andb_true_iff in H. destruct H as [H1 H2].
  apply ascii_eqb_true in H1. subst d. now rewrite (IH b H2).
Qed.

(** ** The field after a key, through the thirty passes *)

Lemma mark_task_completes (d : text) (k : nat) :
  completes pending_field completed_field d (mark_task d k).
Proof. apply completes_sub_all. exact pending_nonempty. Qed.

Lemma completes_fields_trans (s t u : text) :
  completes pending_field completed_field s t ->
  completes pending_field completed_field t u ->
  completes pending_field completed_field s u.
Proof.
  apply completes_trans.
  - exact pending_nonempty.
  - exact pending_not_into_completed.
  - exact pending_not_in_completed.
Qed.

Section Chain.
Variables (n : nat) (a m b : text).
Hypothesis n_in_range : in_range n.
Hypothesis field_first : nostart pending_field m [].

Lemma kept_completed_step (d : text) (k : nat) :
  kept completed_field n a m b d ->
  kept completed_field n a m b (mark_task d k).
Proof.
  intros (a' & b' & Ha & Hb & ->).
  destruct (completed_block_kept (item_key n) pending_field completed_field
              pending_nonempty pending_not_into_completed
              pending_not_in_completed (key_apart n n_in_range)
              a' m b' _ field_first (mark_task_completes _ k))
    as (a2 & b2 & Ha2 & Hb2 & E).
  exists a2, b2. repeat split; [| | exact E];
    eapply completes_fields_trans; eassumption.
Qed.

Lemma kept_pending_step (d : text) (k : nat) :
  kept pending_field n a m b d ->
  kept pending_field n a m b (mark_task d k) \/
  kept completed_field n a m b (mark_task d k).
Proof.
  intros (a' & b' & Ha & Hb & ->).
  destruct (pending_block_kept (item_key n) pending_field completed_field
              pending_nonempty pending_unbordered pending_not_into_completed
              pending_not_in_completed (key_apart n n_in_range)
              a' m b' _ field_first (mark_task_completes _ k))
    as (a2 & b2 & Ha2 & Hb2 & [E | E]); [left | right];
    exists a2, b2; (repeat split; [| | exact E]);
    eapply completes_fields_trans; eassumption.
Qed.

(** The pass of task [n] itself completes the field. *)
Lemma kept_own_step (d : text) :
  kept pending_field n a m b d ->
  kept completed_field n a m b (mark_task d n).
Proof.
  intros (a' & b' & Ha & Hb & ->).
  destruct (sub_all_marks (item_key n) pending_field completed_field
              pending_nonempty pending_unbordered (key_apart n n_in_range)
              (key_unbordered n n_in_range) a' m b' field_first)
    as (a2 & Ha2 & E).
  exists a2, (mark_task b' n). repeat split.
  - eapply completes_fields_trans; eassumption.
  - eapply completes_fields_trans; [exact Hb | apply mark_task_completes].
  - exact E.
Qed.

Lemma kept_completed_fold (l : list nat) (d : text) :
  kept completed_field n a m b d ->
  kept completed_field n a m b (fold_left mark_task l d).
Proof.
  revert d; induction l as [|k l IH]; intros d H; [exact H|].
  simpl. apply IH. now apply kept_completed_step.
Qed.

Lemma kept_either_fold (l : list nat) (d : text) :
  kept pending_field n a m b d \/ kept completed_field n a m b d ->
  kept pending_field n a m b (fold_left mark_task l d) \/
  kept completed_field n a m b (fold_left mark_task l d).
Proof.
  revert d; induction l as [|k l IH]; intros d H; [exact H|].
  simpl. apply IH. destruct H as [H | H].
  - now apply kept_pending_step.
  - right. now apply kept_completed_step.
Qed.

(** After the thirty passes the field is completed. *)
Lemma mark_all_completes_field :
  kept completed_field n a m b
    (mark_all (a ++ item_key n ++ m ++ pending_field ++ b)).
Proof.
  unfold mark_all, completed_tasks.
  replace 30 with ((n - 1) + (1 + (30 - n)))
    by (unfold in_range in n_in_range; lia).
  rewrite seq_app, fold_left_app, seq_app, fold_left_app.
  replace (1 + (n - 1)) with n by (unfold in_range in n_in_range; lia).
  apply kept_completed_fold. cbn [seq fold_left].
  assert (H0 : kept pending_field n a m b
                 (a ++ item_key n ++ m ++ pending_field ++ b)).
  { exists a, b. repeat split; apply completes_refl. }
  destruct (kept_either_fold (seq 1 (n - 1)) _ (or_introl H0)) as [H | H].
  - now apply kept_own_step.
  - now apply kept_completed_step.
Qed.
End Chain.

Lemma partition_exists (p x y : text) :
  exists u v, partition p (x ++ p ++ y) = Some (u, v).
Proof.
  induction x as [|c x IH]; rewrite partition_eq.
  - simpl. rewrite strip_prefix_app. eauto.
  - destruct (strip_prefix p ((c :: x) ++ p ++ y)); [eauto|].
    simpl app. cbv iota beta. destruct IH as (u & v & ->). eauto.
Qed.

(** ** The run as a whole *)

Lemma main_cases (w : world) :
  main w =
  match files w task_plan_path with
  | None => (inl FileNotFoundError, w)
  | Some f =>
      if readable f then
        if writable f then
          (inr tt,
           emit (EvPrint report)
             (emit (EvWrite task_plan_path (mark_all (content f)))
                (with_file task_plan_path
                   (File (mark_all (content f)) (readable f) true)
                   (emit (EvRead task_plan_path) w))))
        else (inl PermissionError, emit (EvRead task_plan_path) w)
      else (inl PermissionError, w)
  end.
Proof.
  destruct (files w task_plan_path) as [f|] eqn:Hf.
  - destruct (readable f) eqn:Hr.
    + destruct (writable f) eqn:Hw.
      * rewrite (main_run w f Hf Hr Hw). now rewrite Hr.
      * unfold main, bind, read_text.
        rewrite Hf, Hr, update_tasks_mark_all. unfold lift, ret, write_text.
        cbn [files emit]. now rewrite Hf, Hw.
    + unfold main, bind, read_text. now rewrite Hf, Hr.
  - unfold main, bind, read_text. now rewrite Hf.
Qed.

Lemma written_back (w : world) (f : file) :
  files w task_plan_path = Some f ->
  readable f = true -> writable f = true ->
  option_map content (files (snd (main w)) task_plan_path)
  = Some (mark_all (content f)).
Proof.
  intros Hf Hr Hw. rewrite (main_run w f Hf Hr Hw).
  cbn [snd files emit with_file]. unfold path_eqb.
  now rewrite text_eqb_refl.
Qed.

Lemma mark_all_completes (l : list nat) (d : text) :
  completes pending_field completed_field d (fold_left mark_task l d).
Proof.
  revert d; induction l as [|k l IH]; intros d; simpl.
  - apply completes_refl.
  - eapply completes_fields_trans; [apply mark_task_completes | apply IH].
Qed.

Lemma steps_marks (l : list nat) (c : text) :
  (forall n, In n l -> in_range n) -> steps l c (fold_left mark_task l c).
Proof.
  revert c; induction l as [|n l IH]; intros c Hl; simpl.
  - constructor.
  - apply steps_cons with (c' := mark_task c n).
    + apply (loop_body_mark_task n c). apply Hl. now left.
    + apply IH. intros k Hk. apply Hl. now right.
Qed.

Lemma run_log (w : world) (t : text) (f : file) :
  log (emit (EvPrint report)
         (emit (EvWrite task_plan_path t)
            (with_file task_plan_path f (emit (EvRead task_plan_path) w))))
  = log w ++ [EvRead task_plan_path; EvWrite task_plan_path t; EvPrint report].
Proof. cbn [log emit with_file]. now rewrite <- !app_assoc. Qed.

(** ** The key spelled out, and the date in a completed field *)

Lemma list_item_spelled :
  forallb (fun n => text_eqb (item_key n) (list_item n)) completed_tasks = true.
Proof. vm_compute. reflexivity. Qed.

Lemma item_key_list_item (n : nat) : in_range n -> item_key n = list_item n.
Proof.
  intros H. apply text_eqb_eq.
  apply (proj1 (forallb_forall _ _) list_item_spelled). now apply in_range_In.
Qed.

Lemma count_sub_cons (D : text) (c : ascii) (s : text) :
  count_sub D (c :: s)
  = (match strip_prefix D (c :: s) with Some _ => 1 | None => 0 end)
    + count_sub D s.
Proof. reflexivity. Qed.

Lemma count_sub_head (D y : text) :
  D <> [] -> count_sub D (D ++ y) = 1 + count_sub D (tl D ++ y).
Proof.
  destruct D as [|d D']; [contradiction|]. intros _.
  simpl app. rewrite count_sub_cons.
  change (d :: D' ++ y) with ((d :: D') ++ y).
  now rewrite strip_prefix_app.
Qed.

(** Whether [D] starts at a kept character is the same before and after
    the rewriting, when [D] can run neither into a completed field nor
    over the start of a pending one. *)
Lemma indicator_kept (D s t : text) (c : ascii) :
  no_enter D completed_field = true ->
  (forall y, nostart pending_field (tl D) y) ->
  completes pending_field completed_field s t ->
  match strip_prefix D (c :: t) with Some _ => 1 | None => 0 end
  = match strip_prefix D (c :: s) with Some _ => 1 | None => 0 end.
Proof.
  intros HD HN H. pose proof (completes_keep c H) as Hct.
  destruct (strip_prefix D (c :: t)) as [t1|] eqn:Et.
  - apply strip_prefix_Some in Et. rewrite Et in Hct.
    destruct (completes_prefix_back pending_field completed_field D _ _ HD Hct)
      as (s1 & -> & _).
    now rewrite strip_prefix_app.
  - destruct (strip_prefix D (c :: s)) as [s1|] eqn:Es; [|reflexivity].
    exfalso. apply strip_prefix_Some in Es.
    destruct D as [|d D']; [discriminate|].
    simpl in Es, HN. injection Es as Ec Es. subst c s.
    destruct (completes_nostart pending_field completed_field D' s1 t
                (HN s1) H) as (t' & -> & _).
    change (d :: D' ++ t') with ((d :: D') ++ t') in Et.
    rewrite strip_prefix_app in Et. discriminate.
Qed.

Lemma stamp_in_completed (t : text) :
  count_sub date_stamp (completed_field ++ t) = 1 + count_sub date_stamp t.
Proof.
  change completed_field with (stamp_before ++ date_stamp ++ [dq]).
  rewrite <- !app_assoc.
  rewrite (count_sub_nostart date_stamp stamp_before _
             (clearb_nostart date_stamp stamp_before eq_refl _)).
  rewrite count_sub_head by discriminate.
  rewrite app_assoc.
  now rewrite (count_sub_nostart date_stamp (tl date_stamp ++ [dq]) t
                 (clearb_nostart date_stamp (tl date_stamp ++ [dq]) eq_refl t)).
Qed.

(** Each field that is completed brings one date [2025-11-05] and takes
    away one pending field; nothing else changes either count. *)
Lemma completes_fields_stamp (s t : text) :
  completes pending_field completed_field s t ->
  count_sub date_stamp t + count_sub pending_field t
  = count_sub date_stamp s + count_sub pending_field s.
Proof.
  induction 1 as [|c s t H IH|s t H IH].
  - reflexivity.
  - rewrite !count_sub_cons.
    rewrite (indicator_kept date_stamp s t c eq_refl
               (fun y => clearb_nostart pending_field (tl date_stamp) eq_refl y) H).
    rewrite (indicator_kept pending_field s t c pending_not_into_completed
               (fun y => no_enter_nostart (tl pending_field) pending_field
                           pending_unbordered y) H).
    lia.
  - rewrite stamp_in_completed.
    rewrite (count_sub_nostart pending_field completed_field t
               (clearb_nostart _ _ pending_not_in_completed t)).
    rewrite (count_sub_nostart date_stamp pending_field s
               (clearb_nostart date_stamp pending_field eq_refl s)).
    rewrite (count_sub_head pending_field s pending_nonempty).
    rewrite (count_sub_nostart pending_field (tl pending_field) s
               (no_enter_nostart (tl pending_field) pending_field
                  pending_unbordered s)).
    lia.
Qed.

(** ** The claims *)

(** C1.  For every task number [n] in 1..30: when the plan holds the list
    item [- task_id: "TASK-NNN"], [NNN] being [n] in three decimal digits
    with leading zeros, then some text [m], then the field
    [status: "pending"], this field being the first one after the item,
    the run succeeds and the document written back has in place of that
    field [status: "completed"], a newline, six spaces and
    [completed_date: "2025-11-05"].  The item and [m] stand as they were;
    the text before and the text after differ from the input only by
    fields completed the same way. *)
Theorem C1_pending_field_completed
        (w : world) (f : file) (n : nat) (a m b : text) :
  in_range n ->
  files w task_plan_path = Some f ->
  readable f = true ->
  writable f = true ->
  content f = a ++ list_item n ++ m ++ pending_field ++ b ->
  partition pending_field (m ++ pending_field ++ b) = Some (m, b) ->
  exists a' b',
    completes pending_field completed_field a a' /\
    completes pending_field completed_field b b' /\
    fst (main w) = inr tt /\
    option_map content (files (snd (main w)) task_plan_path)
    = Some (a' ++ list_item n ++ m
              ++ lit "status: " ++ [dq] ++ lit "completed" ++ [dq]
              ++ [nl] ++ lit "      completed_date: " ++ [dq]
              ++ lit "2025-11-05" ++ [dq] ++ b').
Proof.
  intros Hn Hf Hr Hw Hc Hp.
  rewrite <- (item_key_list_item n Hn) in Hc.
  rewrite <- (item_key_list_item n Hn).
  apply partition_Some in Hp. destruct Hp as [_ Hm].
  apply nostart_weaken in Hm.
  destruct (mark_all_completes_field n a m b Hn Hm) as (a' & b' & Ha & Hb & E).
  exists a', b'. repeat split; try assumption.
  - now rewrite (main_run w f Hf Hr Hw).
  - rewrite (written_back w f Hf Hr Hw), Hc, E. reflexivity.
Qed.

Lemma C1_witness :
  in_range 5 /\
  partition (lit "status: " ++ [dq] ++ lit "pending" ++ [dq])
    (plan_between ++ lit "status: " ++ [dq] ++ lit "pending" ++ [dq]
       ++ plan_after)
  = Some (plan_between, plan_after) /\
  exists a' b',
    completes pending_field completed_field plan_before a' /\
    completes pending_field completed_field plan_after b' /\
    fst (main (world_of plan_written_out 0 no_env)) = inr tt /\
    option_map content
      (files (snd (main (world_of plan_written_out 0 no_env))) task_plan_path)
    = Some (a' ++ (lit "- task_id: " ++ [dq] ++ lit "TASK-005" ++ [dq])
              ++ plan_between
              ++ lit "status: " ++ [dq] ++ lit "completed" ++ [dq]
              ++ [nl] ++ lit "      completed_date: " ++ [dq]
              ++ lit "2025-11-05" ++ [dq] ++ b').
Proof.
  assert (H1 : in_range 5) by (unfold in_range; lia).
  assert (H2 : partition pending_field
                 (plan_between ++ pending_field ++ plan_after)
               = Some (plan_between, plan_after))
    by (vm_compute; reflexivity).
  split; [exact H1|]. split; [exact H2|].
  apply (C1_pending_field_completed
           (world_of plan_written_out 0 no_env) (File plan_written_out true true)
           5 plan_before plan_between plan_after H1);
    try reflexivity; try exact H2.
Defined.

(** C2.  The claim says that a record outside 1..30, or one whose status is
    not pending, comes back byte for byte.  The script run on a plan whose
    TASK-030 is already completed and whose TASK-031 is pending: the lazy
    [.*?] of the pattern for TASK-030 runs on past the end of that record
    and the pending field of TASK-031, outside the range, is rewritten. *)
Theorem C2_outside_record_rewritten :
  update_tasks (task_record 30 (lit "completed") ++ task_record 31 (lit "pending"))
  = inr (task_record 30 (lit "completed") ++ completed_record 31).
Proof. vm_compute. reflexivity. Qed.

(** C3.  The claim says that a second pass changes nothing.  On a plan
    with TASK-030 and TASK-031 both pending the first pass completes
    TASK-030 only; the second pass, through the key of TASK-030, completes
    TASK-031: the two outputs differ. *)
Theorem C3_second_pass_changes :
  update_tasks doc_last_then_outside
  = inr (completed_record 30 ++ task_record 31 (lit "pending")) /\
  update_tasks (completed_record 30 ++ task_record 31 (lit "pending"))
  = inr (completed_record 30 ++ completed_record 31) /\
  completed_record 30 ++ task_record 31 (lit "pending")
  <> completed_record 30 ++ completed_record 31.
Proof.
  split; [vm_compute; reflexivity|]. split; [vm_compute; reflexivity|].
  intros H.
  apply (f_equal (text_eqb (completed_record 30 ++ completed_record 31))) in H.
  vm_compute in H. discriminate.
Qed.

(** C4, as stated, fails: on a plan that holds the record of TASK-001
    twice, both pending, the pass for TASK-001 rewrites both, where
    replacing the first match only would leave the second pending. *)
Lemma C4_counterexample :
  loop_body 1 doc_duplicate = inr (completed_record 1 ++ completed_record 1) /\
  sub_first (item_key 1) pending_field completed_field doc_duplicate
  = completed_record 1 ++ task_record 1 (lit "pending") /\
  loop_body 1 doc_duplicate
  <> inr (sub_first (item_key 1) pending_field completed_field doc_duplicate).
Proof.
  assert (E1 : loop_body 1 doc_duplicate
               = inr (completed_record 1 ++ completed_record 1))
    by (vm_compute; reflexivity).
  assert (E2 : sub_first (item_key 1) pending_field completed_field doc_duplicate
               = completed_record 1 ++ task_record 1 (lit "pending"))
    by (vm_compute; reflexivity).
  split; [exact E1|]. split; [exact E2|].
  rewrite E1, E2. intros H.
  apply (f_equal (fun r : result text =>
                    match r with
                    | inr t => text_eqb (completed_record 1 ++ completed_record 1) t
                    | inl _ => false
                    end)) in H.
  vm_compute in H. discriminate.
Qed.

(** C4, amended.  The pass of a task in range replaces the first
    occurrence of its key that is followed by a pending field, up to the
    first such field, and then goes on in the same way in the text after
    that match: a later occurrence that starts after the end of a match is
    rewritten as well. *)
Theorem C4_every_match_replaced (n : nat) (doc a r1 m b : text) :
  in_range n ->
  partition (item_key n) doc = Some (a, r1) ->
  partition pending_field r1 = Some (m, b) ->
  exists b',
    loop_body n b = inr b' /\
    loop_body n doc = inr (a ++ item_key n ++ m ++ completed_field ++ b').
Proof.
  intros Hn H1 H2. exists (mark_task b n). split.
  - now apply loop_body_mark_task.
  - rewrite (loop_body_mark_task n doc Hn). f_equal.
    exact (sub_all_step (item_key n) pending_field completed_field
             pending_nonempty doc a r1 m b H1 H2).
Qed.

Lemma C4_witness :
  in_range 1 /\
  exists b',
    loop_body 1 (five_after ++ task_record 1 (lit "pending")) = inr b' /\
    loop_body 1 (item_key 1 ++ five_between ++ pending_field ++ five_after
                   ++ task_record 1 (lit "pending"))
    = inr ([] ++ item_key 1 ++ five_between ++ completed_field ++ b').
Proof.
  assert (H1 : in_range 1) by (unfold in_range; lia).
  split; [exact H1|].
  apply (C4_every_match_replaced 1
           (item_key 1 ++ five_between ++ pending_field ++ five_after
              ++ task_record 1 (lit "pending"))
           [] (five_between ++ pending_field ++ five_after
                 ++ task_record 1 (lit "pending"))
           five_between (five_after ++ task_record 1 (lit "pending")) H1);
    vm_compute; reflexivity.
Defined.

(** C5, as stated, fails: a plan that holds [task_id: "TASK-005"] and,
    on the next line, [status: "pending"], but no dash before the key,
    comes back unchanged. *)
Lemma C5_counterexample :
  (exists a m b, doc_no_dash = a ++ bare_key 5 ++ m ++ pending_field ++ b) /\
  update_tasks doc_no_dash = inr doc_no_dash.
Proof.
  split.
  - exists (lit "  "), ([nl] ++ lit "  "), [nl]. vm_compute. reflexivity.
  - vm_compute. reflexivity.
Qed.

(** C5, amended.  The match depends only on the literal
    [- task_id: "TASK-NNN"], dash and space included, and on a literal
    [status: "pending"] anywhere after it.  For every [n] in range and
    whatever the texts [a], [m] and [b] around them, the first pending
    field after the key is rewritten by the run. *)
Theorem C5_key_then_field_suffices (n : nat) (a m b : text) :
  in_range n ->
  exists m0 rest a' b',
    partition pending_field (m ++ pending_field ++ b) = Some (m0, rest) /\
    completes pending_field completed_field a a' /\
    completes pending_field completed_field rest b' /\
    update_tasks (a ++ item_key n ++ m ++ pending_field ++ b)
    = inr (a' ++ item_key n ++ m0 ++ completed_field ++ b').
Proof.
  intros Hn.
  destruct (partition_exists pending_field m b) as (m0 & rest & Hp).
  pose proof (partition_Some _ _ _ _ Hp) as [E Hm].
  apply nostart_weaken in Hm.
  destruct (mark_all_completes_field n a m0 rest Hn Hm)
    as (a' & b' & Ha & Hb & Hd).
  exists m0, rest, a', b'. repeat split; try assumption.
  rewrite update_tasks_mark_all, E, Hd. reflexivity.
Qed.

Lemma C5_witness :
  in_range 7 /\
  exists m0 rest a' b',
    partition pending_field
      (lit "}{ not yaml" ++ pending_field ++ lit "]]") = Some (m0, rest) /\
    completes pending_field completed_field (lit "<<") a' /\
    completes pending_field completed_field rest b' /\
    update_tasks (lit "<<" ++ item_key 7 ++ lit "}{ not yaml"
                    ++ pending_field ++ lit "]]")
    = inr (a' ++ item_key 7 ++ m0 ++ completed_field ++ b').
Proof.
  assert (H1 : in_range 7) by (unfold in_range; lia).
  split; [exact H1|].
  exact (C5_key_then_field_suffices 7 (lit "<<") (lit "}{ not yaml")
           (lit "]]") H1).
Defined.

(** C6.  Whatever the plan holds, a run on a readable and writable plan
    ends without an exception and its one printed message is
    [Updated 30 tasks to completed status]: the count is the number of
    task numbers tried, 30, not the number of fields rewritten.  This
    covers a plan from which the record of a task in range is missing. *)
Theorem C6_reports_thirty (w : world) (f : file) :
  files w task_plan_path = Some f ->
  readable f = true ->
  writable f = true ->
  fst (main w) = inr tt /\
  length completed_tasks = 30 /\
  exists evs,
    log (snd (main w))
    = log w ++ evs ++ [EvPrint (lit "Updated 30 tasks to completed status")] /\
    existsb is_print evs = false.
Proof.
  intros Hf Hr Hw. rewrite (main_run w f Hf Hr Hw).
  split; [reflexivity|]. split; [reflexivity|].
  exists [EvRead task_plan_path;
          EvWrite task_plan_path (mark_all (content f))].
  split; [|reflexivity].
  cbn [snd]. now rewrite run_log.
Qed.

Lemma C6_witness :
  fst (main (world_of (task_record 8 (lit "pending")) 0 no_env)) = inr tt /\
  length completed_tasks = 30 /\
  exists evs,
    log (snd (main (world_of (task_record 8 (lit "pending")) 0 no_env)))
    = log (world_of (task_record 8 (lit "pending")) 0 no_env) ++ evs
        ++ [EvPrint (lit "Updated 30 tasks to completed status")] /\
    existsb is_print evs = false.
Proof.
  apply (C6_reports_thirty
           (world_of (task_record 8 (lit "pending")) 0 no_env)
           (File (task_record 8 (lit "pending")) true true));
    reflexivity.
Defined.

(** C7.  A run on a readable and writable plan reads the file once and
    writes it once, the write after the whole loop: the effects of the run
    are one read, one write and the print, in this order, and the text
    written, which is the content of the file afterwards, is the text read
    taken through [re.sub] for the task numbers 1, 2, ..., 30 in this
    order. *)
Theorem C7_read_once_written_once (w : world) (f : file) :
  files w task_plan_path = Some f ->
  readable f = true ->
  writable f = true ->
  exists written,
    steps one_to_thirty (content f) written /\
    log (snd (main w))
    = log w ++ [EvRead task_plan_path;
                EvWrite task_plan_path written;
                EvPrint report] /\
    option_map content (files (snd (main w)) task_plan_path) = Some written.
Proof.
  intros Hf Hr Hw. exists (mark_all (content f)). repeat split.
  - change one_to_thirty with completed_tasks. apply steps_marks.
    intros n Hn. unfold completed_tasks in Hn. apply in_seq in Hn.
    unfold in_range. lia.
  - rewrite (main_run w f Hf Hr Hw). cbn [snd]. apply run_log.
  - exact (written_back w f Hf Hr Hw).
Qed.

Lemma C7_witness :
  exists written,
    steps one_to_thirty doc_five written /\
    log (snd (main (world_of doc_five 0 no_env)))
    = log (world_of doc_five 0 no_env)
        ++ [EvRead task_plan_path;
            EvWrite task_plan_path written;
            EvPrint report] /\
    option_map content
      (files (snd (main (world_of doc_five 0 no_env))) task_plan_path)
    = Some written.
Proof.
  apply (C7_read_once_written_once (world_of doc_five 0 no_env)
           (File doc_five true true));
    reflexivity.
Defined.

(** C8.  When the plan is missing or cannot be read, the run ends with the
    exception of the read ([FileNotFoundError], or [PermissionError]) and
    the world is as it was: no file is written and nothing is printed. *)
Theorem C8_read_failure_changes_nothing (w : world) :
  match files w task_plan_path with
  | None => True
  | Some f => readable f = false
  end ->
  main w =
  (inl match files w task_plan_path with
       | None => FileNotFoundError
       | Some _ => PermissionError
       end, w).
Proof.
  intros H. rewrite main_cases.
  destruct (files w task_plan_path) as [f|]; [|reflexivity].
  now rewrite H.
Qed.

Lemma C8_witness :
  main empty_world = (inl FileNotFoundError, empty_world).
Proof.
  apply (C8_read_failure_changes_nothing empty_world). exact I.
Defined.

(** C9.  The run depends on the plan alone, and the date it stamps is the
    literal [2025-11-05], not the date of the day.  Two worlds that hold
    the same plan, and differ in their clock, their environment, their
    other files or their past log, give the same result, the same plan
    afterwards and the same new effects.  When the plan can be read and
    written, the run in the second world writes back the plan of the first
    with some pending fields replaced by [status: "completed"], a newline,
    six spaces and [completed_date: "2025-11-05"]; each field completed
    adds exactly one occurrence of [2025-11-05] to the text; and the one
    message printed is [Updated 30 tasks to completed status]. *)
Theorem C9_depends_on_plan_only (w1 w2 : world) :
  files w1 task_plan_path = files w2 task_plan_path ->
  fst (main w1) = fst (main w2) /\
  files (snd (main w1)) task_plan_path = files (snd (main w2)) task_plan_path /\
  (exists evs,
     log (snd (main w1)) = log w1 ++ evs /\
     log (snd (main w2)) = log w2 ++ evs) /\
  forall f,
    files w1 task_plan_path = Some f ->
    readable f = true ->
    writable f = true ->
    exists written,
      option_map content (files (snd (main w2)) task_plan_path) = Some written /\
      log (snd (main w2))
      = log w2 ++ [EvRead task_plan_path;
                   EvWrite task_plan_path written;
                   EvPrint (lit "Updated 30 tasks to completed status")] /\
      completes (lit "status: " ++ [dq] ++ lit "pending" ++ [dq])
        (lit "status: " ++ [dq] ++ lit "completed" ++ [dq]
           ++ [nl] ++ lit "      completed_date: " ++ [dq]
           ++ lit "2025-11-05" ++ [dq])
        (content f) written /\
      count_sub (lit "2025-11-05") written
        + count_sub (lit "status: " ++ [dq] ++ lit "pending" ++ [dq]) written
      = count_sub (lit "2025-11-05") (content f)
        + count_sub (lit "status: " ++ [dq] ++ lit "pending" ++ [dq])
            (content f).
Proof.
  intros H. split; [|split; [|split]].
  - rewrite !main_cases, <- H.
    destruct (files w1 task_plan_path) as [f|]; [|reflexivity].
    destruct (readable f); [destruct (writable f)|]; reflexivity.
  - rewrite !main_cases, <- H.
    destruct (files w1 task_plan_path) as [f|] eqn:Hf; [|cbn [snd]; congruence].
    destruct (readable f); [destruct (writable f)|]; cbn [snd].
    + cbn [files emit with_file]. unfold path_eqb. now rewrite text_eqb_refl.
    + cbn [files emit]. congruence.
    + congruence.
  - rewrite !main_cases, <- H.
    destruct (files w1 task_plan_path) as [f|].
    + destruct (readable f); [destruct (writable f)|]; cbn [snd].
      * exists [EvRead task_plan_path;
                EvWrite task_plan_path (mark_all (content f));
                EvPrint report].
        now rewrite !run_log.
      * exists [EvRead task_plan_path]. now cbn [log emit].
      * exists []. now rewrite !app_nil_r.
    + exists []. cbn [snd]. now rewrite !app_nil_r.
  - intros f Hf Hr Hw. rewrite H in Hf.
    exists (mark_all (content f)). split; [|split; [|split]].
    + exact (written_back w2 f Hf Hr Hw).
    + rewrite (main_run w2 f Hf Hr Hw). cbn [snd]. apply run_log.
    + apply (mark_all_completes completed_tasks (content f)).
    + apply (completes_fields_stamp (content f) (mark_all (content f))).
      apply mark_all_completes.
Qed.

Lemma C9_witness :
  fst (main (world_of plan_written_out 0 no_env))
  = fst (main (world_of plan_written_out 365 other_env)) /\
  files (snd (main (world_of plan_written_out 0 no_env))) task_plan_path
  = files (snd (main (world_of plan_written_out 365 other_env))) task_plan_path /\
  (exists evs,
     log (snd (main (world_of plan_written_out 0 no_env)))
     = log (world_of plan_written_out 0 no_env) ++ evs /\
     log (snd (main (world_of plan_written_out 365 other_env)))
     = log (world_of plan_written_out 365 other_env) ++ evs) /\
  forall f,
    files (world_of plan_written_out 0 no_env) task_plan_path = Some f ->
    readable f = true ->
    writable f = true ->
    exists written,
      option_map content
        (files (snd (main (world_of plan_written_out 365 other_env)))
           task_plan_path) = Some written /\
      log (snd (main (world_of plan_written_out 365 other_env)))
      = log (world_of plan_written_out 365 other_env)
          ++ [EvRead task_plan_path;
              EvWrite task_plan_path written;
              EvPrint (lit "Updated 30 tasks to completed status")] /\
      completes (lit "status: " ++ [dq] ++ lit "pending" ++ [dq])
        (lit "status: " ++ [dq] ++ lit "completed" ++ [dq]
           ++ [nl] ++ lit "      completed_date: " ++ [dq]
           ++ lit "2025-11-05" ++ [dq])
        (content f) written /\
      count_sub (lit "2025-11-05") written
        + count_sub (lit "status: " ++ [dq] ++ lit "pending" ++ [dq]) written
      = count_sub (lit "2025-11-05") (content f)
        + count_sub (lit "status: " ++ [dq] ++ lit "pending" ++ [dq])
            (content f).
Proof.
  apply (C9_depends_on_plan_only (world_of plan_written_out 0 no_env)
           (world_of plan_written_out 365 other_env)).
  reflexivity.
Defined.

(** C10.  No pass of the loop adds an occurrence of [status: "pending"]:
    a substitution takes one away and the text it puts in holds none, so
    the number of occurrences after a pass is at most the number before,
    and so is the number after the whole run. *)
Theorem C10_pending_count_never_grows (n : nat) (doc : text) :
  in_range n ->
  (exists doc',
     loop_body n doc = inr doc' /\
     count_sub pending_field doc' <= count_sub pending_field doc) /\
  (exists doc'',
     update_tasks doc = inr doc'' /\
     count_sub pending_field doc'' <= count_sub pending_field doc) /\
  count_sub pending_field completed_field = 0.
Proof.
  intros Hn. split; [|split].
  - exists (mark_task doc n). split; [now apply loop_body_mark_task|].
    apply (completes_count pending_field completed_field
             pending_not_into_completed pending_not_in_completed).
    apply mark_task_completes.
  - exists (mark_all doc). split; [apply update_tasks_mark_all|].
    apply (completes_count pending_field completed_field
             pending_not_into_completed pending_not_in_completed).
    apply mark_all_completes.
  - reflexivity.
Qed.

Lemma C10_witness :
  in_range 5 /\
  (exists doc',
     loop_body 5 doc_five = inr doc' /\
     count_sub pending_field doc' <= count_sub pending_field doc_five) /\
  (exists doc'',
     update_tasks doc_five = inr doc'' /\
     count_sub pending_field doc'' <= count_sub pending_field doc_five) /\
  count_sub pending_field completed_field = 0.
Proof.
  assert (H1 : in_range 5) by (unfold in_range; lia).
  split; [exact H1|].
  exact (C10_pending_count_never_grows 5 doc_five H1).
Defined.

(** ** Further properties of the script *)

Lemma path_eqb_neq (q p : path) : q <> p -> path_eqb q p = false.
Proof.
  intros H. unfold path_eqb. destruct (text_eqb q p) eqn:E; [|reflexivity].
  apply text_eqb_eq in E. contradiction.
Qed.

Lemma partition_exists_suffix (p x y : text) :
  exists u v w, partition p (x ++ p ++ y) = Some (u, v) /\ v = w ++ y.
Proof.
  induction x as [|c x IH]; rewrite partition_eq.
  - simpl. rewrite strip_prefix_app. exists [], y, []. now split.
  - destruct (strip_prefix p ((c :: x) ++ p ++ y)) as [r|] eqn:E.
    + apply strip_prefix_Some in E. rewrite app_assoc in E.
      destruct (app_suffix _ _ _ _ E) as [w Hw];
        [rewrite length_app; lia|].
      exists [], r, w. now split.
    + simpl app. cbv iota beta.
      destruct IH as (u & v & w & -> & Hv). exists (c :: u), v, w. now split.
Qed.

Lemma has_match_false_id (P S R s : text) :
  has_match P S s = false -> sub_all P S R s = s.
Proof.
  unfold has_match. intros H.
  destruct (partition P s) as [[a r1]|] eqn:E1; [|now apply sub_all_nokey].
  destruct (partition S r1) as [[m b]|] eqn:E2; [discriminate|].
  exact (sub_all_nofield P S R s a r1 E1 E2).
Qed.

Lemma has_match_follows (P S s : text) :
  has_match P S s = true <-> exists a m b, s = a ++ P ++ m ++ S ++ b.
Proof.
  unfold has_match. split.
  - intros H.
    destruct (partition P s) as [[a r1]|] eqn:E1; [|discriminate].
    destruct (partition S r1) as [[m b]|] eqn:E2; [|discriminate].
    apply partition_Some in E1, E2. destruct E1 as [-> _], E2 as [-> _].
    now exists a, m, b.
  - intros (a & m & b & ->).
    destruct (partition_exists_suffix P a (m ++ S ++ b))
      as (u & v & w & -> & ->).
    replace (w ++ m ++ S ++ b) with ((w ++ m) ++ S ++ b)
      by now rewrite <- app_assoc.
    destruct (partition_exists S (w ++ m) b) as (u' & v' & ->). reflexivity.
Qed.

Lemma completes_length_le (S R s t : text) :
  length S <= length R -> completes S R s t -> length s <= length t.
Proof.
  intros HL. induction 1 as [|c s t _ IH|s t _ IH]; simpl;
    [lia | lia | rewrite !length_app; lia].
Qed.

Lemma sub_all_grows (P S R s : text) :
  S <> [] -> length S < length R -> has_match P S s = true ->
  length s < length (sub_all P S R s).
Proof.
  intros HS HL H. unfold has_match in H.
  destruct (partition P s) as [[a r1]|] eqn:E1; [|discriminate].
  destruct (partition S r1) as [[m b]|] eqn:E2; [|discriminate].
  rewrite (sub_all_step P S R HS s a r1 m b E1 E2).
  apply partition_Some in E1, E2. destruct E1 as [-> _], E2 as [-> _].
  pose proof (completes_length_le S R b (sub_all P S R b) (Nat.lt_le_incl _ _ HL)
                (completes_sub_all P S R HS b)).
  rewrite !length_app. lia.
Qed.

Lemma pending_shorter : length pending_field < length completed_field.
Proof. vm_compute. lia. Qed.

Lemma fold_marks_id (l : list nat) (d : text) :
  (forall n, In n l -> has_match (item_key n) pending_field d = false) ->
  fold_left mark_task l d = d.
Proof.
  induction l as [|n l IH]; intros H; [reflexivity|].
  simpl. unfold mark_task at 2.
  rewrite has_match_false_id by (apply H; now left).
  apply IH. intros k Hk. apply H. now right.
Qed.

(** *** Counting characters and fields *)

Lemma pending_tail_nostart (y : text) :
  nostart pending_field (tl pending_field) y.
Proof. apply no_enter_nostart. exact pending_unbordered. Qed.

Lemma count_pending_head (s : text) :
  count_sub pending_field (pending_field ++ s)
  = 1 + count_sub pending_field s.
Proof.
  change (pending_field ++ s)
    with ("s"%char :: tl pending_field ++ s).
  change (count_sub pending_field ("s"%char :: tl pending_field ++ s))
    with ((match strip_prefix pending_field (pending_field ++ s) with
           | Some _ => 1 | None => 0 end)
          + count_sub pending_field (tl pending_field ++ s)).
  rewrite strip_prefix_app.
  now rewrite (count_sub_nostart _ _ _ (pending_tail_nostart s)).
Qed.

Lemma completes_fields_account (s t : text) :
  completes pending_field completed_field s t ->
  length t + 37 * count_sub pending_field t
  = length s + 37 * count_sub pending_field s.
Proof.
  induction 1 as [|c s t H IH|s t H IH].
  - reflexivity.
  - assert (E : match strip_prefix pending_field (c :: t) with
                | Some _ => 1 | None => 0 end
                = match strip_prefix pending_field (c :: s) with
                  | Some _ => 1 | None => 0 end).
    { pose proof (completes_keep c H) as Hct.
      destruct (strip_prefix pending_field (c :: t)) as [t1|] eqn:Et.
      - apply strip_prefix_Some in Et. rewrite Et in Hct.
        destruct (completes_prefix_back pending_field completed_field
                    pending_field _ _ pending_not_into_completed Hct)
          as (s1 & -> & _).
        now rewrite strip_prefix_app.
      - destruct (strip_prefix pending_field (c :: s)) as [s1|] eqn:Es;
          [|reflexivity].
        exfalso. apply strip_prefix_Some in Es.
        change pending_field with ("s"%char :: tl pending_field) in Es.
        simpl app in Es. injection Es as Ec Es. subst c s.
        destruct (completes_nostart pending_field completed_field
                    (tl pending_field) s1 t (pending_tail_nostart s1) H)
          as (t' & -> & _).
        change ("s"%char :: tl pending_field ++ t')
          with (pending_field ++ t') in Et.
        rewrite strip_prefix_app in Et. discriminate. }
    change (count_sub pending_field (c :: t))
      with ((match strip_prefix pending_field (c :: t) with
             | Some _ => 1 | None => 0 end) + count_sub pending_field t).
    change (count_sub pending_field (c :: s))
      with ((match strip_prefix pending_field (c :: s) with
             | Some _ => 1 | None => 0 end) + count_sub pending_field s).
    rewrite E. simpl length. lia.
  - rewrite count_pending_head.
    rewrite (count_sub_nostart pending_field completed_field t
               (clearb_nostart _ _ pending_not_in_completed t)).
    rewrite !length_app.
    change (length completed_field) with 54.
    change (length pending_field) with 17. lia.
Qed.

(** *** Text in which the key does not start *)

Lemma sub_all_prefix (P S R a y : text) :
  P <> [] -> S <> [] -> nostart P a y ->
  sub_all P S R (a ++ y) = a ++ sub_all P S R y.
Proof.
  intros HP HS Ha.
  destruct (partition P y) as [[a0 r1]|] eqn:E1.
  - pose proof (partition_Some _ _ _ _ E1) as [Ey Hn0].
    assert (E1' : partition P (a ++ y) = Some (a ++ a0, r1)).
    { rewrite Ey, app_assoc. apply partition_intro.
      apply nostart_app; [now rewrite <- Ey | exact Hn0]. }
    destruct (partition S r1) as [[m b]|] eqn:E2.
    + rewrite (sub_all_step P S R HS _ _ _ _ _ E1' E2).
      rewrite (sub_all_step P S R HS _ _ _ _ _ E1 E2).
      now rewrite <- app_assoc.
    + rewrite (sub_all_nofield P S R _ _ _ E1' E2).
      now rewrite (sub_all_nofield P S R _ _ _ E1 E2).
  - rewrite (sub_all_nokey P S R y E1).
    apply sub_all_nokey. apply partition_None_intro; [exact HP|].
    apply nostart_app; [now rewrite app_nil_r|].
    now apply partition_None.
Qed.

Lemma keys_apart_true : keys_apart = true.
Proof. vm_compute. reflexivity. Qed.

Lemma key_not_into_key (n k : nat) :
  in_range n -> in_range k ->
  no_enter (tl (item_key n)) (item_key k) = true.
Proof.
  intros Hn Hk. pose proof keys_apart_true as H. unfold keys_apart in H.
  rewrite forallb_forall in H. specialize (H n (in_range_In n Hn)).
  rewrite forallb_forall in H. exact (H k (in_range_In k Hk)).
Qed.

Lemma key_nonempty (n : nat) : item_key n <> [].
Proof. discriminate. Qed.

(** One pass leaves alone a text without its key, the key that follows
    it, and completes fields after that key only. *)
Lemma preamble_step (n k : nat) (a r : text) :
  in_range n -> in_range k ->
  partition (item_key n) a = None ->
  exists r',
    completes pending_field completed_field r r' /\
    mark_task (a ++ item_key k ++ r) n = a ++ item_key k ++ r'.
Proof.
  intros Hn Hk Ha. unfold mark_task.
  rewrite sub_all_prefix;
    [| apply key_nonempty | exact pending_nonempty |].
  - pose proof (mark_task_completes (item_key k ++ r) n) as Hc.
    pose proof (key_apart k Hk) as Hap. unfold apart in Hap.
    apply andb_true_iff in Hap. destruct Hap as [Hcl _].
    destruct (completes_nostart pending_field completed_field
                (item_key k) r _ (clearb_nostart _ _ Hcl r) Hc)
      as (r' & E & Hr).
    exists r'. split; [exact Hr|]. unfold mark_task in E. now rewrite E.
  - apply nostart_straddle; [now apply partition_None|].
    apply no_enter_nostraddle. now apply key_not_into_key.
Qed.

Lemma preamble_fold (l : list nat) (k : nat) (a r : text) :
  (forall n, In n l -> in_range n) -> in_range k ->
  (forall n, In n l -> partition (item_key n) a = None) ->
  exists r',
    completes pending_field completed_field r r' /\
    fold_left mark_task l (a ++ item_key k ++ r) = a ++ item_key k ++ r'.
Proof.
  revert r; induction l as [|n l IH]; intros r Hl Hk Ha.
  - exists r. split; [apply completes_refl | reflexivity].
  - destruct (preamble_step n k a r (Hl n (or_introl eq_refl)) Hk
                (Ha n (or_introl eq_refl))) as (r1 & Hr1 & E1).
    destruct (IH r1 (fun j Hj => Hl j (or_intror Hj)) Hk
                (fun j Hj => Ha j (or_intror Hj))) as (r2 & Hr2 & E2).
    exists r2. split.
    + eapply completes_fields_trans; eassumption.
    + cbn [fold_left]. now rewrite E1.
Qed.

(** *** Decimal digits *)

Lemma digit_val_char (d : nat) : d < 10 -> digit_val (digit_char d) = Some d.
Proof.
  intros H. do 10 (destruct d as [|d]; [reflexivity|]). lia.
Qed.

Lemma digits_of_value (fuel n : nat) (acc : text) :
  n < fuel ->
  int_digits 0 (digits_of fuel n acc) = int_digits n acc.
Proof.
  revert n acc; induction fuel as [|fuel IH]; intros n acc Hf; [lia|].
  cbn [digits_of].
  assert (Hd : forall v, int_digits v (digit_char (n mod 10) :: acc)
                         = int_digits (10 * v + n mod 10) acc).
  { intros v. cbn [int_digits].
    now rewrite digit_val_char by (apply Nat.mod_upper_bound; lia). }
  destruct (n / 10 =? 0) eqn:E.
  - apply Nat.eqb_eq in E. rewrite Hd. f_equal.
    rewrite (Nat.div_mod_eq n 10) at 2. rewrite E. lia.
  - apply Nat.eqb_neq in E.
    assert (Hlt : n / 10 < fuel).
    { assert (n / 10 < n) by (apply Nat.div_lt; [|lia];
        destruct n; [now rewrite Nat.Div0.div_0_l in E | lia]).
      lia. }
    rewrite (IH _ _ Hlt), Hd. f_equal. symmetry. apply Nat.div_mod_eq.
Qed.

Lemma digits_of_nonempty (fuel n : nat) (acc : text) :
  digits_of (S fuel) n acc <> [].
Proof.
  revert n acc; induction fuel as [|fuel IH]; intros n acc.
  - cbn [digits_of]. destruct (n / 10 =? 0); discriminate.
  - change (digits_of (S (S fuel)) n acc)
      with (if n / 10 =? 0 then digit_char (n mod 10) :: acc
            else digits_of (S fuel) (n / 10) (digit_char (n mod 10) :: acc)).
    destruct (n / 10 =? 0); [discriminate | apply IH].
Qed.

Lemma int_digits_zeros (k : nat) (s : text) :
  int_digits 0 (repeat "0"%char k ++ s) = int_digits 0 s.
Proof. induction k as [|k IH]; [reflexivity | exact IH]. Qed.

(** The formatted number reads back: it is made of decimal digits only
    and their value is the number. *)
Lemma int_of_format (n : nat) : int_of (format_03d n) = Some n.
Proof.
  assert (Hne : format_03d n <> []).
  { unfold format_03d, zfill, str_of_nat. intros E.
    apply app_eq_nil in E. destruct E as [_ E].
    exact (digits_of_nonempty n n [] E). }
  unfold int_of. destruct (format_03d n) as [|c r] eqn:Ef; [contradiction|].
  rewrite <- Ef. unfold format_03d, zfill. rewrite int_digits_zeros.
  unfold str_of_nat. now rewrite digits_of_value by lia.
Qed.

Lemma no_key_in_range (a : text) (n : nat) :
  no_key_in a = true -> in_range n -> partition (item_key n) a = None.
Proof.
  unfold no_key_in. intros H Hn. rewrite forallb_forall in H.
  specialize (H n (in_range_In n Hn)).
  now destruct (partition (item_key n) a).
Qed.

Lemma existsb_false_all (A : Type) (f : A -> bool) (l : list A) :
  existsb f l = false -> forall x, In x l -> f x = false.
Proof.
  intros H x Hx. destruct (f x) eqn:E; [|reflexivity].
  assert (K : existsb f l = true) by (apply existsb_exists; eauto).
  congruence.
Qed.

Lemma In_in_range (n : nat) : In n completed_tasks -> in_range n.
Proof.
  unfold completed_tasks, in_range. intros H. apply in_seq in H. lia.
Qed.

(** ** What else the script does and never does *)

(** X1.  When the plan can be read and not written, the run ends with
    [PermissionError] raised by the write after the loop: the plan stands
    as it was, the read is the only effect and nothing is printed. *)
Theorem X1_write_failure_prints_nothing (w : world) (f : file) :
  files w task_plan_path = Some f ->
  readable f = true ->
  writable f = false ->
  fst (main w) = inl PermissionError /\
  files (snd (main w)) task_plan_path = Some f /\
  log (snd (main w)) = log w ++ [EvRead task_plan_path].
Proof.
  intros Hf Hr Hw. rewrite main_cases, Hf, Hr, Hw. cbn [fst snd files log emit].
  now repeat split.
Qed.

Lemma X1_witness :
  fst (main (read_only_world doc_five)) = inl PermissionError /\
  files (snd (main (read_only_world doc_five))) task_plan_path
  = Some (File doc_five true false) /\
  log (snd (main (read_only_world doc_five)))
  = log (read_only_world doc_five) ++ [EvRead task_plan_path].
Proof.
  apply (X1_write_failure_prints_nothing (read_only_world doc_five)
           (File doc_five true false));
    reflexivity.
Defined.

(** X2.  The document written back is the document read in which some
    occurrences of [status: "pending"] have been replaced by the completed
    field: every other character is kept, in its place and order, and
    nothing is deleted. *)
Theorem X2_only_fields_completed (w : world) (f : file) :
  files w task_plan_path = Some f ->
  readable f = true ->
  writable f = true ->
  exists written,
    option_map content (files (snd (main w)) task_plan_path) = Some written /\
    completes pending_field completed_field (content f) written.
Proof.
  intros Hf Hr Hw. exists (mark_all (content f)). split.
  - exact (written_back w f Hf Hr Hw).
  - apply mark_all_completes.
Qed.

Lemma X2_witness :
  exists written,
    option_map content
      (files (snd (main (world_of doc_five 0 no_env))) task_plan_path)
    = Some written /\
    completes pending_field completed_field doc_five written.
Proof.
  apply (X2_only_fields_completed (world_of doc_five 0 no_env)
           (File doc_five true true));
    reflexivity.
Defined.

(** X3.  Whatever the outcome of the run, no file other than the task
    plan is created, changed or removed. *)
Theorem X3_other_files_untouched (w : world) (q : path) :
  q <> task_plan_path ->
  files (snd (main w)) q = files w q.
Proof.
  intros Hq. rewrite main_cases.
  destruct (files w task_plan_path) as [f|]; [|reflexivity].
  destruct (readable f); [|reflexivity].
  destruct (writable f); [|reflexivity].
  cbn [snd files emit with_file]. now rewrite (path_eqb_neq q _ Hq).
Qed.

Lemma X3_witness :
  files (snd (main (two_files_world doc_five))) notes_path
  = files (two_files_world doc_five) notes_path.
Proof.
  apply (X3_other_files_untouched (two_files_world doc_five) notes_path).
  discriminate.
Defined.

(** X4.  The pass of a task in range never raises, and the text it
    returns differs from the text it was given exactly when the key of the
    task, [- task_id: "TASK-NNN"] with the number in three digits, occurs
    in it with [status: "pending"] somewhere after that key. *)
Theorem X4_pass_changes_iff (n : nat) (doc : text) :
  in_range n ->
  exists out,
    loop_body n doc = inr out /\
    (out <> doc <->
     exists a m b, doc = a ++ list_item n ++ m ++ pending_field ++ b).
Proof.
  intros Hn. exists (mark_task doc n).
  split; [now apply loop_body_mark_task|].
  rewrite <- (item_key_list_item n Hn).
  rewrite <- has_match_follows. unfold mark_task. split.
  - intros H.
    destruct (has_match (item_key n) pending_field doc) eqn:E; [reflexivity|].
    exfalso. apply H. now apply has_match_false_id.
  - intros H E.
    pose proof (sub_all_grows (item_key n) pending_field completed_field doc
                  pending_nonempty pending_shorter H) as Hl.
    rewrite E in Hl. lia.
Qed.

Lemma X4_witness :
  exists out,
    loop_body 5 plan_written_out = inr out /\
    (out <> plan_written_out <->
     exists a m b,
       plan_written_out
       = a ++ (lit "- task_id: " ++ [dq] ++ lit "TASK-005" ++ [dq]) ++ m
           ++ pending_field ++ b).
Proof.
  apply (X4_pass_changes_iff 5 plan_written_out). unfold in_range. lia.
Defined.

(** X5.  The loop never raises, and the text it returns differs from the
    plan it was given exactly when the key of some task in 1..30,
    [- task_id: "TASK-NNN"] with the number in three digits, occurs in the
    plan with [status: "pending"] somewhere after it.  A plan without a
    pending field, and a plan without a key in range, come back as they
    were. *)
Theorem X5_run_changes_iff (doc : text) :
  exists out,
    update_tasks doc = inr out /\
    (out <> doc <->
     exists n a m b,
       in_range n /\ doc = a ++ list_item n ++ m ++ pending_field ++ b).
Proof.
  exists (mark_all doc). split; [apply update_tasks_mark_all|]. split.
  - intros H.
    destruct (existsb (fun n => has_match (item_key n) pending_field doc)
                completed_tasks) eqn:E.
    + apply existsb_exists in E. destruct E as (n & Hin & Hm).
      apply has_match_follows in Hm. destruct Hm as (a & m & b & Hd).
      exists n, a, m, b. split; [now apply In_in_range|].
      now rewrite <- (item_key_list_item n (In_in_range n Hin)).
    + exfalso. apply H. unfold mark_all. apply fold_marks_id.
      exact (existsb_false_all _ _ _ E).
  - intros (n & a & m & b & Hn & Hd) H.
    rewrite <- (item_key_list_item n Hn) in Hd.
    destruct (partition_exists pending_field m b) as (m0 & rest & Hp).
    pose proof (partition_Some _ _ _ _ Hp) as [E Hm].
    apply nostart_weaken in Hm.
    destruct (mark_all_completes_field n a m0 rest Hn Hm)
      as (a' & b' & Ha & Hb & Hout).
    rewrite Hd, E in H. rewrite Hout in H.
    apply (f_equal (@length ascii)) in H. rewrite !length_app in H.
    pose proof pending_shorter as HL.
    pose proof (completes_length_le _ _ _ _ (Nat.lt_le_incl _ _ HL) Ha).
    pose proof (completes_length_le _ _ _ _ (Nat.lt_le_incl _ _ HL) Hb).
    lia.
Qed.

(** X6.  What stands before the first key of a task in range is never
    touched: if no such key occurs in [a], a plan [a], then the key of a
    task in range, then [rest] comes back as [a], that key, and [rest]
    with some of its pending fields completed, even when [a] itself holds
    pending fields. *)
Theorem X6_preamble_untouched (a rest : text) (k : nat) :
  (forall n, in_range n -> partition (item_key n) a = None) ->
  in_range k ->
  exists rest',
    completes pending_field completed_field rest rest' /\
    update_tasks (a ++ item_key k ++ rest) = inr (a ++ item_key k ++ rest').
Proof.
  intros Ha Hk.
  destruct (preamble_fold completed_tasks k a rest In_in_range Hk
              (fun n Hn => Ha n (In_in_range n Hn))) as (r' & Hr & E).
  exists r'. split; [exact Hr|].
  rewrite update_tasks_mark_all. unfold mark_all. now rewrite E.
Qed.

Lemma X6_witness :
  count_sub pending_field summary = 1 /\
  exists rest',
    completes pending_field completed_field
      (five_between ++ pending_field ++ five_after) rest' /\
    update_tasks (summary ++ item_key 5 ++ five_between ++ pending_field
                    ++ five_after)
    = inr (summary ++ item_key 5 ++ rest').
Proof.
  split; [reflexivity|].
  apply (X6_preamble_untouched summary
           (five_between ++ pending_field ++ five_after) 5).
  - intros n Hn. apply no_key_in_range; [vm_compute; reflexivity | exact Hn].
  - unfold in_range. lia.
Defined.

(** X7.  The loop never fails and only adds text: for every document, each
    field it completes makes the text 37 characters longer and takes away
    one occurrence of [status: "pending"]; the length of the output plus
    37 times its pending fields equals the same sum for the input. *)
Theorem X7_thirty_seven_per_field (doc : text) :
  exists out,
    update_tasks doc = inr out /\
    length doc <= length out /\
    length out + 37 * count_sub pending_field out
    = length doc + 37 * count_sub pending_field doc.
Proof.
  exists (mark_all doc). split; [apply update_tasks_mark_all|].
  pose proof (mark_all_completes completed_tasks doc) as Hc.
  split.
  - apply (completes_length_le pending_field completed_field); [|exact Hc].
    apply Nat.lt_le_incl, pending_shorter.
  - now apply completes_fields_account.
Qed.

(** X9.  Different task numbers give different identifiers, keys and
    patterns: no two passes of the loop search for the same key. *)
Theorem X9_patterns_distinct (n k : nat) :
  n <> k ->
  task_id n <> task_id k /\ item_key n <> item_key k /\ pattern n <> pattern k.
Proof.
  intros Hnk.
  assert (Hf : format_03d n <> format_03d k).
  { intros E. apply Hnk.
    assert (Hs : Some n = Some k)
      by (rewrite <- (int_of_format n), <- (int_of_format k); now rewrite E).
    now injection Hs. }
  repeat split; intros E; apply Hf.
  - unfold task_id in E. now apply app_inv_head in E.
  - unfold item_key, task_id in E.
    do 2 apply app_inv_head in E. apply app_inv_tail in E.
    now apply app_inv_head in E.
  - unfold pattern, task_id in E.
    do 2 apply app_inv_head in E. apply app_inv_tail in E.
    now apply app_inv_head in E.
Qed.

Lemma X9_witness :
  task_id 1 <> task_id 10 /\ item_key 1 <> item_key 10
  /\ pattern 1 <> pattern 10.
Proof.
  apply (X9_patterns_distinct 1 10). lia.
Defined.
